(** * A terminal snake game: shallow embedding of [snake.cpp] and its properties

    The program is one [main] function: it seeds the C library generator,
    creates the game state and runs a render / input / update / sleep loop
    until the [gameOver] flag is set.  The embedding keeps the program's
    variables in a record, threads the hidden state of [std::rand] through
    the update, takes the results of the terminal system calls of one tick
    as an input record, and collects what the program writes and how long it
    sleeps in a list of events. *)

From Stdlib Require Import ZArith List String Ascii Bool Lia.
Import ListNotations.
Open Scope Z_scope.

Module Snake.

(** ** Data *)

(** [const int width = 20; const int height = 20;] *)
Definition width : Z := 20.
Definition height : Z := 20.

(** [std::pair<int,int>]: [first] is the column x, [second] the row y.  The
    coordinates are C++ [int]s; they are embedded in [Z], and
    [reachable_in_grid] below shows that they never leave [0 .. 19], so no
    arithmetic of the program can overflow. *)
Definition Pos : Type := (Z * Z)%type.

(** [operator==] of [std::pair]. *)
Definition pos_eqb (a b : Pos) : bool :=
  (fst a =? fst b) && (snd a =? snd b).

(** The variables of [main], and the number of calls made to [std::rand]
    so far (the hidden state of the generator). *)
Record State : Type := mkState {
  snake : list Pos;      (* std::vector, head first *)
  dir : Z;               (* 1=left, 2=right, 3=up, 4=down *)
  fruit : Pos;
  gameOver : bool;
  rand_idx : nat
}.

Definition LEFT : Z := 1.
Definition RIGHT : Z := 2.
Definition UP : Z := 3.
Definition DOWN : Z := 4.

(** What the terminal answers to the system calls of one tick: the byte
    count of [ioctl(FIONREAD)], the return value and the byte of
    [read(STDIN_FILENO, &c, 1)], the return value and the two bytes of
    [read(STDIN_FILENO, seq, 2)].  A field is only looked at when the
    program makes the call. *)
Record Stdin : Type := mkStdin {
  bytesWaiting : Z;
  read1 : Z;
  c : ascii;
  read2 : Z;
  seq0 : ascii;
  seq1 : ascii
}.

(** What the program does to the outside world. *)
Inductive Event : Type :=
| SetRaw (enable : bool)       (* setRaw(enable) *)
| Cout (s : string)            (* std::cout << s *)
| SleepMs (ms : Z).            (* std::this_thread::sleep_for *)

Inductive Result (A : Type) : Type :=
| Done (a : A)                 (* the code returned a *)
| Undef                        (* undefined behaviour: front() of an empty vector *)
| Timeout.                     (* the model ran out of fuel *)
Arguments Done {A} a.
Arguments Undef {A}.
Arguments Timeout {A}.

Definition ESC : ascii := ascii_of_nat 27.
Definition NL : ascii := ascii_of_nat 10.
Definition str1 (a : ascii) : string := String a EmptyString.

(** ** The terminal (lines 26-37) *)

(** [struct termios] of the system header: four flag words of type
    [tcflag_t] (32 bits, unsigned) and the control characters.  [setRaw]
    only copies the structure and changes [c_lflag]. *)
Record termios : Type := mkTermios {
  c_iflag : Z;
  c_oflag : Z;
  c_cflag : Z;
  c_lflag : Z;
  c_cc : list Z
}.

(** The attributes of the terminal on standard input, and the static
    variable [oldt] of [setRaw]. *)
Record Tty : Type := mkTty {
  attrs : termios;
  oldt : termios
}.

Section Terminal.

(** The values of the macros [ICANON] and [ECHO] of the system header. *)
Variables ICANON ECHO : Z.

(** [newt.c_lflag &= ~(ICANON | ECHO)]: the [int] operand is converted to
    the unsigned 32-bit type of the flag word. *)
Definition raw_lflag (l : Z) : Z :=
  Z.land l (Z.lnot (Z.lor ICANON ECHO) mod 2 ^ 32).

(** [setRaw(enable)]; [tcgetattr] reads the attributes of the terminal
    into its argument and [tcsetattr] with [TCSANOW] replaces them (the code
    does not look at the results of the two calls). *)
Definition setRaw (enable : bool) (w : Tty) : Tty :=
  if enable then
    let oldt' := attrs w in                                 (* tcgetattr *)
    let newt := mkTermios (c_iflag oldt') (c_oflag oldt') (c_cflag oldt')
                          (raw_lflag (c_lflag oldt')) (c_cc oldt') in
    mkTty newt oldt'                                        (* tcsetattr *)
  else
    mkTty (oldt w) (oldt w).                                (* tcsetattr *)

(** The effect of a sequence of events of the program on the terminal
    attributes. *)
Fixpoint run_terminal (tr : list Event) (w : Tty) : Tty :=
  match tr with
  | [] => w
  | SetRaw b :: rest => run_terminal rest (setRaw b w)
  | _ :: rest => run_terminal rest w
  end.

End Terminal.

(** ** Sample inputs for the concrete runs below *)

(** A terminal in canonical mode with echo, with the flag values of Linux
    ([ICANON] = 2, [ECHO] = 8); nothing was saved yet. *)
Definition sample_tty : Tty :=
  mkTty (mkTermios 17664 5 191 35387 [3; 28; 127; 21; 4; 0; 1])
        (mkTermios 0 0 0 0 []).

(** A generator whose first values are 11, 10, 0, 5 and then always 7. *)
Definition sample_rand (n : nat) : N :=
  match n with
  | 0%nat => 11 | 1%nat => 10 | 2%nat => 0 | 3%nat => 5 | _ => 7
  end%N.

(** A generator that always returns 19. *)
Definition rand19 (n : nat) : N := 19%N.

(** No byte is waiting. *)
Definition no_key : Stdin := mkStdin 0 0 "x" 0 "x" "x".

(** The three bytes ESC '[' k are waiting and both reads deliver them. *)
Definition arrow (k : ascii) : Stdin := mkStdin 3 1 ESC 2 "[" k.

(** States of the two sample runs: with [sample_rand] after the first
    tick (the fruit at (11,10) was eaten), and with [rand19] after eight
    ticks without a key (the snake is next to the right wall) and after the
    ninth (it is on the wall). *)
Definition st_start : State := mkState [(10, 10)] 2 (11, 10) false 2.
Definition st_grown : State := mkState [(11, 10); (10, 10)] 2 (0, 5) false 4.
Definition st_reversed : State :=
  mkState [(10, 10); (11, 10)] 1 (0, 5) true 4.
Definition st_near_wall : State := mkState [(18, 10)] 2 (19, 19) false 2.
Definition st_on_wall : State := mkState [(19, 10)] 2 (19, 19) true 2.

Section Game.

(** The sequence that [std::srand(std::time(nullptr))] selects: the value
    of the n-th call to [std::rand()], which lies in [0 .. RAND_MAX]. *)
Variable rand_seq : nat -> N.

(** ** The random generator *)

(** [std::rand()]: the next value of the sequence. *)
Definition rand (s : State) : Z * State :=
  (Z.of_N (rand_seq (rand_idx s)),
   mkState (snake s) (dir s) (fruit s) (gameOver s) (S (rand_idx s))).

(** [{std::rand()%width, std::rand()%height}]: a braced list is evaluated
    left to right; [%] truncates like [Z.rem]. *)
Definition rand_fruit (s : State) : Pos * State :=
  let (r1, s1) := rand s in
  let (r2, s2) := rand s1 in
  ((Z.rem r1 width, Z.rem r2 height), s2).

(** ** Start-up (lines 57-67) *)

Definition init : State :=
  let s0 := mkState [(Z.quot width 2, Z.quot height 2)] 2 (0, 0) false 0 in
  let (f, s1) := rand_fruit s0 in
  mkState (snake s1) (dir s1) f (gameOver s1) (rand_idx s1).

(** ** Drawing the board (lines 76-97) *)

(** [for (int i = start; i < start + n; ++i) body(i)], writing to the
    output. *)
Fixpoint for_range (n : nat) (i : Z) (body : Z -> list Event) : list Event :=
  match n with
  | O => []
  | S k => body i ++ for_range k (i + 1) body
  end.

(** The scan of the snake for one cell: writes 'O' at the first segment
    found there and stops; returns the output and the [printed] flag. *)
Fixpoint draw_segments (sn : list Pos) (x y : Z) : list Event * bool :=
  match sn with
  | [] => ([], false)
  | s :: rest =>
      if (fst s =? x) && (snd s =? y) then ([Cout "O"], true)
      else draw_segments rest x y
  end.

Definition draw_cell (st : State) (y x : Z) : list Event :=
  if (x =? 0) || (x =? width - 1) || (y =? 0) || (y =? height - 1) then
    [Cout "#"]
  else if (x =? fst (fruit st)) && (y =? snd (fruit st)) then
    [Cout "F"]
  else
    let (out, printed) := draw_segments (snake st) x y in
    if negb printed then out ++ [Cout " "] else out.

Definition draw_row (st : State) (y : Z) : list Event :=
  for_range (Z.to_nat width) 0 (draw_cell st y) ++ [Cout (str1 NL)].

Definition clear_screen : string :=
  String ESC ("[H" ++ String ESC "[2J").

Definition trailer : string :=
  "Use arrow keys to move. Ctrl+C to quit." ++ str1 NL.

Definition draw (st : State) : list Event :=
  [Cout clear_screen]
  ++ for_range (Z.to_nat height) 0 (draw_row st)
  ++ [Cout trailer].

(** ** Input (lines 102-117) *)

(** [kbhit()] *)
Definition kbhit (inp : Stdin) : bool := bytesWaiting inp >? 0.

Definition handle_input (inp : Stdin) (d : Z) : Z :=
  if kbhit inp then
    if read1 inp >? 0 then
      if Ascii.eqb (c inp) ESC then
        if (read2 inp =? 2) && Ascii.eqb (seq0 inp) "["%char then
          if Ascii.eqb (seq1 inp) "A"%char then 3
          else if Ascii.eqb (seq1 inp) "B"%char then 4
          else if Ascii.eqb (seq1 inp) "C"%char then 2
          else if Ascii.eqb (seq1 inp) "D"%char then 1
          else d
        else d
      else d
    else d
  else d.

(** ** Update (lines 122-150) *)

(** The [switch (dir)] on the copy of the head; it has no default case. *)
Definition move (d : Z) (head : Pos) : Pos :=
  match d with
  | 1 => (fst head - 1, snd head)
  | 2 => (fst head + 1, snd head)
  | 3 => (fst head, snd head - 1)
  | 4 => (fst head, snd head + 1)
  | _ => head
  end.

Definition hits_wall (head : Pos) : bool :=
  (fst head <=? 0) || (fst head >=? width - 1)
  || (snd head <=? 0) || (snd head >=? height - 1).

(** [for (size_t i = start; i < start + n; ++i) if (snake[i] == head)
    gameOver = true;] *)
Fixpoint self_loop (n i : nat) (sn : list Pos) (head : Pos) (go : bool) : bool :=
  match n with
  | O => go
  | S k =>
      let go' :=
        match nth_error sn i with
        | Some p => if pos_eqb p head then true else go
        | None => go
        end in
      self_loop k (S i) sn head go'
  end.

(** The new head of the tick: [snake.front()] moved by one cell. *)
Definition new_head (st : State) : option Pos :=
  match snake st with
  | [] => None
  | h :: _ => Some (move (dir st) h)
  end.

Definition update (st : State) : Result State :=
  match new_head st with
  | None => Undef
  | Some head =>
      let sn := head :: snake st in                       (* snake.insert *)
      let go1 := if hits_wall head then true else gameOver st in
      let go2 := self_loop (List.length sn - 1) 1 sn head go1 in
      if pos_eqb head (fruit st) then
        let (f, s1) := rand_fruit st in
        Done (mkState sn (dir st) f go2 (rand_idx s1))
      else
        Done (mkState (removelast sn) (dir st) (fruit st) go2 (rand_idx st))
  end.

(** ** One iteration of the loop, the loop and [main] *)

Definition set_dir (d : Z) (st : State) : State :=
  mkState (snake st) d (fruit st) (gameOver st) (rand_idx st).

Definition tick (inp : Stdin) (st : State) : Result (State * list Event) :=
  let out := draw st in
  let st1 := set_dir (handle_input inp (dir st)) st in
  match update st1 with
  | Done st2 => Done (st2, out ++ [SleepMs 100])
  | Undef => Undef
  | Timeout => Timeout
  end.

(** [while (!gameOver) { ... }]; [keys t] is what the terminal answers in
    iteration [t].  The loop need not end (a player can circle for ever), so
    the model takes a bound on the number of iterations. *)
Fixpoint game_loop (fuel : nat) (keys : nat -> Stdin) (t : nat) (st : State)
  : Result (State * list Event) :=
  if gameOver st then Done (st, [])
  else
    match fuel with
    | O => Timeout
    | S f =>
        match tick (keys t) st with
        | Done (st1, ev) =>
            match game_loop f keys (S t) st1 with
            | Done (st2, ev2) => Done (st2, ev ++ ev2)
            | Undef => Undef
            | Timeout => Timeout
            end
        | Undef => Undef
        | Timeout => Timeout
        end
    end.

Definition game_over_msg : string := "Game Over!" ++ str1 NL.

(** [main]: the exit code and everything done to the terminal. *)
Definition main (fuel : nat) (keys : nat -> Stdin) : Result (Z * list Event) :=
  match game_loop fuel keys 0%nat init with
  | Done (_, ev) =>
      Done (0, [SetRaw true] ++ ev ++ [SetRaw false; Cout game_over_msg])
  | Undef => Undef
  | Timeout => Timeout
  end.

(** ** Notions used by the statements *)

(** The head that the update of this tick computes: the front of the snake
    moved in the direction in force after the input was handled. *)
Definition tick_head (inp : Stdin) (st : State) : option Pos :=
  new_head (set_dir (handle_input inp (dir st)) st).

(** The states the program can be in at the loop test. *)
Inductive reachable : State -> Prop :=
| reach_init : reachable init
| reach_tick (st st' : State) (inp : Stdin) (ev : list Event) :
    reachable st -> gameOver st = false ->
    tick inp st = Done (st', ev) -> reachable st'.

(** Several iterations in a row, as long as the game goes on. *)
Fixpoint run_ticks (inps : list Stdin) (st : State) : option State :=
  match inps with
  | [] => Some st
  | inp :: rest =>
      if gameOver st then None
      else match tick inp st with
           | Done (st', _) => run_ticks rest st'
           | _ => None
           end
  end.

(** The wall test of the specification, on coordinates. *)
Definition on_or_outside_ring (p : Pos) : Prop :=
  fst p <= 0 \/ fst p >= width - 1 \/ snd p <= 0 \/ snd p >= height - 1.

(** The specification's reading of the input: the poll finds a pending
    key, and the bytes read are ESC, '[' and [code]. *)
Definition polled_arrow (inp : Stdin) (code : ascii) : Prop :=
  bytesWaiting inp > 0 /\ read1 inp > 0 /\ c inp = ESC /\
  read2 inp = 2 /\ seq0 inp = "["%char /\ seq1 inp = code.

(** The specification's frame: the glyph of a cell by precedence, the
    cells in row-major order, a newline after each row, then the trailer. *)
Definition on_ring (x y : Z) : bool :=
  (x =? 0) || (x =? width - 1) || (y =? 0) || (y =? height - 1).

Definition glyph_spec (st : State) (x y : Z) : string :=
  if on_ring x y then "#"
  else if pos_eqb (x, y) (fruit st) then "F"
  else if existsb (pos_eqb (x, y)) (snake st) then "O"
  else " ".

Definition upto (n : Z) : list Z := map Z.of_nat (seq 0 (Z.to_nat n)).

Definition row_spec (st : State) (y : Z) : list Event :=
  map (fun x => Cout (glyph_spec st x y)) (upto width) ++ [Cout (str1 NL)].

Definition frame_spec (st : State) : list Event :=
  flat_map (row_spec st) (upto height) ++ [Cout trailer].

Definition Event_eq_dec (a b : Event) : {a = b} + {a <> b}.
Proof.
  decide equality; [apply bool_dec | apply string_dec | apply Z.eq_dec].
Defined.

(** Two cells that share a side. *)
Definition adjacent (p q : Pos) : Prop :=
  Z.abs (fst p - fst q) + Z.abs (snd p - snd q) = 1.

(** Each segment is a neighbour of the next one. *)
Fixpoint chain (l : list Pos) : Prop :=
  match l with
  | a :: (b :: _) as rest => adjacent a b /\ chain rest
  | _ => True
  end.

(** The cells strictly inside the outer ring. *)
Definition interior_cells : list Pos :=
  list_prod (map Z.of_nat (seq 1 (Z.to_nat (width - 2))))
            (map Z.of_nat (seq 1 (Z.to_nat (height - 2)))).

(** [n] cells from [h] in direction [d]. *)
Definition shift (d : Z) (n : Z) (h : Pos) : Pos :=
  match d with
  | 1 => (fst h - n, snd h)
  | 2 => (fst h + n, snd h)
  | 3 => (fst h, snd h - n)
  | 4 => (fst h, snd h + n)
  | _ => h
  end.


(** The place of the cell (x,y) among the events of a frame: after the
    clear-screen sequence, rows of [width] glyphs and a newline. *)
Definition cell_index (p : Pos) : nat :=
  S (Z.to_nat (snd p) * S (Z.to_nat width) + Z.to_nat (fst p)).

Definition is_set_raw (e : Event) : bool :=
  match e with
  | SetRaw _ => true
  | _ => false
  end.

Definition is_game_over_msg (e : Event) : bool :=
  match e with
  | Cout s => String.eqb s game_over_msg
  | _ => false
  end.

Definition in_grid (p : Pos) : Prop :=
  0 <= fst p <= width - 1 /\ 0 <= snd p <= height - 1.

Definition interior (p : Pos) : Prop :=
  1 <= fst p <= width - 2 /\ 1 <= snd p <= height - 2.

(** ** Basic facts *)

Lemma pos_eqb_eq (a b : Pos) : pos_eqb a b = true <-> a = b.
Proof.
  destruct a as [ax ay], b as [bx by_]; unfold pos_eqb; simpl.
  rewrite andb_true_iff, !Z.eqb_eq.
  split; [intros [-> ->]; reflexivity | intros E; inversion E; auto].
Qed.

Lemma pos_eqb_refl (a : Pos) : pos_eqb a a = true.
Proof. apply pos_eqb_eq; reflexivity. Qed.

Lemma pos_eqb_neq (a b : Pos) : pos_eqb a b = false <-> a <> b.
Proof.
  rewrite <- pos_eqb_eq. destruct (pos_eqb a b); split; congruence.
Qed.

Lemma existsb_pos_In (head : Pos) (l : list Pos) :
  existsb (fun p => pos_eqb p head) l = true <-> In head l.
Proof.
  rewrite existsb_exists; split.
  - intros [p [Hin Heq]]. apply pos_eqb_eq in Heq. subst; assumption.
  - intros Hin. exists head. split; [assumption | apply pos_eqb_refl].
Qed.

Lemma hits_wall_ring (p : Pos) :
  hits_wall p = true <-> on_or_outside_ring p.
Proof.
  unfold hits_wall, on_or_outside_ring.
  rewrite !orb_true_iff, !Z.leb_le, !Z.geb_le. lia.
Qed.

(** The index loop of the self-collision test reads the [n] elements that
    start at index [i]. *)
Lemma skipn_nth_error {A : Type} (l : list A) (i : nat) (x : A) :
  nth_error l i = Some x -> skipn i l = x :: skipn (S i) l.
Proof.
  revert i; induction l as [|a l IH]; intros [|i] H; simpl in *;
    try discriminate.
  - inversion H; reflexivity.
  - apply IH; assumption.
Qed.

Lemma self_loop_spec (n : nat) : forall i sn head go,
  self_loop n i sn head go
  = go || existsb (fun p => pos_eqb p head) (firstn n (skipn i sn)).
Proof.
  induction n as [|k IH]; intros i sn head go; simpl.
  - rewrite orb_false_r; reflexivity.
  - rewrite IH. destruct (nth_error sn i) as [p|] eqn:E.
    + rewrite (skipn_nth_error _ _ _ E); simpl.
      destruct (pos_eqb p head); simpl;
        [rewrite orb_true_r | ]; reflexivity.
    + apply nth_error_None in E.
      rewrite (skipn_all2 sn) by lia.
      rewrite (skipn_all2 sn) by assumption.
      rewrite firstn_nil. reflexivity.
Qed.

Lemma self_loop_body (head : Pos) (body : list Pos) (go : bool) :
  self_loop (List.length (head :: body) - 1) 1 (head :: body) head go
  = go || existsb (fun p => pos_eqb p head) body.
Proof.
  rewrite self_loop_spec. simpl. rewrite Nat.sub_0_r, firstn_all.
  reflexivity.
Qed.

(** What one iteration computes, in closed form. *)
Lemma tick_eq (inp : Stdin) (st : State) (head : Pos) :
  tick_head inp st = Some head ->
  tick inp st =
  Done (mkState
          (if pos_eqb head (fruit st) then head :: snake st
           else removelast (head :: snake st))
          (handle_input inp (dir st))
          (if pos_eqb head (fruit st)
           then (Z.rem (Z.of_N (rand_seq (rand_idx st))) width,
                 Z.rem (Z.of_N (rand_seq (S (rand_idx st)))) height)
           else fruit st)
          (gameOver st || hits_wall head
           || existsb (fun p => pos_eqb p head) (snake st))
          (if pos_eqb head (fruit st) then S (S (rand_idx st))
           else rand_idx st),
        draw st ++ [SleepMs 100]).
Proof.
  unfold tick_head, tick, update. intros H. rewrite H.
  cbv zeta. rewrite self_loop_body.
  unfold set_dir at 1 2 3 4 5 6 7 8; simpl.
  replace (if hits_wall head then true else gameOver st)
    with (gameOver st || hits_wall head)
    by (destruct (gameOver st), (hits_wall head); reflexivity).
  destruct (pos_eqb head (fruit st)); reflexivity.
Qed.


Lemma tick_head_front (inp : Stdin) (st : State) (head : Pos) :
  tick_head inp st = Some head ->
  exists h t, snake st = h :: t /\ head = move (handle_input inp (dir st)) h.
Proof.
  unfold tick_head, new_head; simpl.
  destruct (snake st) as [|h t]; [discriminate | ].
  intros E; inversion E; eauto.
Qed.

Lemma tick_done_head (inp : Stdin) (st st' : State) (ev : list Event) :
  tick inp st = Done (st', ev) -> exists head, tick_head inp st = Some head.
Proof.
  unfold tick, update, tick_head.
  destruct (new_head _) as [head|]; [eauto | discriminate].
Qed.

Lemma Done_pair_inj {A B : Type} (a a' : A) (b b' : B) :
  Done (a, b) = Done (a', b') -> a = a' /\ b = b'.
Proof. intros H. inversion H. split; reflexivity. Qed.

(** [pop_back] on lists. *)
Lemma removelast_cons2 {A : Type} (a b : A) (l : list A) :
  removelast (a :: b :: l) = a :: removelast (b :: l).
Proof. reflexivity. Qed.

Lemma length_removelast_cons {A : Type} (l : list A) : forall a,
  List.length (removelast (a :: l)) = List.length l.
Proof.
  induction l as [|b l IH]; intros a; [reflexivity | ].
  rewrite removelast_cons2. cbn [List.length]. f_equal. apply IH.
Qed.

Lemma In_removelast {A : Type} (x : A) (l : list A) :
  In x (removelast l) -> In x l.
Proof.
  induction l as [|a l IH]; [intros [] | ].
  destruct l as [|b l]; [intros [] | ].
  rewrite removelast_cons2. intros [H | H]; [left | right]; auto.
Qed.

Lemma NoDup_removelast {A : Type} (l : list A) :
  NoDup l -> NoDup (removelast l).
Proof.
  induction l as [|a l IH]; intros H; [constructor | ].
  destruct l as [|b l]; [constructor | ].
  rewrite removelast_cons2. inversion H as [|? ? Hnotin Hnd]; subst.
  constructor; [ | apply IH; assumption].
  intros Hin. apply Hnotin. apply In_removelast. assumption.
Qed.

Lemma Forall_removelast {A : Type} (P : A -> Prop) (l : list A) :
  Forall P l -> Forall P (removelast l).
Proof.
  intros H. apply Forall_forall. intros x Hin.
  apply In_removelast in Hin. revert x Hin. apply Forall_forall. assumption.
Qed.

Lemma In_index_ge1 (head : Pos) (body : list Pos) :
  In head body <->
  exists i, (1 <= i)%nat /\ nth_error (head :: body) i = Some head.
Proof.
  split.
  - intros Hin. apply In_nth_error in Hin. destruct Hin as [n Hn].
    exists (S n). split; [lia | exact Hn].
  - intros [i [Hi Hn]]. destruct i as [|n]; [lia | ].
    simpl in Hn. eapply nth_error_In; eassumption.
Qed.

(** ** The update step *)

Lemma move_cases (d : Z) (h : Pos) :
  move d h = (fst h - 1, snd h) \/ move d h = (fst h + 1, snd h) \/
  move d h = (fst h, snd h - 1) \/ move d h = (fst h, snd h + 1) \/
  move d h = h.
Proof.
  unfold move. destruct d as [|p|p]; auto 10.
  repeat (destruct p as [p|p|]; auto 10).
Qed.

Lemma move_in_grid (d : Z) (h : Pos) : interior h -> in_grid (move d h).
Proof.
  unfold interior, in_grid, width, height. intros Hh.
  destruct (move_cases d h) as [E|[E|[E|[E|E]]]]; rewrite E; simpl; lia.
Qed.

Lemma interior_in_grid (p : Pos) : interior p -> in_grid p.
Proof. unfold interior, in_grid. lia. Qed.

Lemma no_wall_interior (p : Pos) : hits_wall p = false -> interior p.
Proof.
  unfold hits_wall, interior. rewrite !orb_false_iff, !Z.leb_gt, !Z.geb_leb,
    !Z.leb_gt. lia.
Qed.

Lemma handle_input_range (inp : Stdin) (d : Z) :
  1 <= d <= 4 -> 1 <= handle_input inp d <= 4.
Proof.
  intros Hd. unfold handle_input.
  repeat match goal with
         | |- context [if ?b then _ else _] => destruct b
         end; lia.
Qed.

(** ** Invariants of the reachable states *)

Lemma reachable_inv (st : State) :
  reachable st ->
  snake st <> [] /\ Forall in_grid (snake st) /\ 1 <= dir st <= 4 /\
  (gameOver st = false -> NoDup (snake st) /\ Forall interior (snake st)).
Proof.
  induction 1 as [|st st' inp ev Hr IH Hgo Htick].
  - assert (Es : snake init = [(10, 10)]) by reflexivity.
    assert (Ed : dir init = 2) by reflexivity.
    rewrite Es, Ed.
    assert (Hi : interior (10, 10))
      by (unfold interior, width, height; simpl; lia).
    split; [discriminate | ].
    split; [constructor; [apply interior_in_grid; exact Hi | constructor] | ].
    split; [lia | ]. intros _.
    split; [constructor; [intros [] | constructor] | ].
    constructor; [exact Hi | constructor].
  - destruct IH as [Hne [_ [Hdir Halive]]].
    destruct (Halive Hgo) as [Hnd Hint].
    destruct (tick_done_head _ _ _ _ Htick) as [head Hhead].
    rewrite (tick_eq _ _ _ Hhead) in Htick.
    apply Done_pair_inj in Htick. destruct Htick as [Hst' _].
    subst st'. cbn [snake dir gameOver].
    destruct (tick_head_front _ _ _ Hhead) as [h [t [Hsn Hmv]]].
    assert (Hh : interior h)
      by (rewrite Hsn in Hint; inversion Hint; assumption).
    assert (Hgrid : in_grid head)
      by (subst head; apply move_in_grid; assumption).
    assert (Hall : Forall in_grid (head :: snake st)).
    { constructor; [assumption | ].
      eapply Forall_impl; [ | exact Hint]. apply interior_in_grid. }
    split.
    { destruct (pos_eqb head (fruit st)); [discriminate | ].
      rewrite Hsn, removelast_cons2. discriminate. }
    split.
    { destruct (pos_eqb head (fruit st));
        [ | apply Forall_removelast]; assumption. }
    split; [apply handle_input_range; assumption | ].
    rewrite Hgo, orb_false_l. intros Hgo'. apply orb_false_iff in Hgo'.
    destruct Hgo' as [Hwall Hself].
    assert (Hnd' : NoDup (head :: snake st)).
    { constructor; [ | assumption]. intros Hin.
      apply existsb_pos_In in Hin. congruence. }
    assert (Hint' : Forall interior (head :: snake st))
      by (constructor; [apply no_wall_interior | ]; assumption).
    destruct (pos_eqb head (fruit st)).
    + split; assumption.
    + split; [apply NoDup_removelast | apply Forall_removelast]; assumption.
Qed.

Lemma reachable_in_grid (st : State) :
  reachable st -> Forall in_grid (snake st).
Proof. intros H. apply reachable_inv in H. tauto. Qed.



Lemma reachable_run_ticks (inps : list Stdin) : forall st st',
  reachable st -> run_ticks inps st = Some st' -> reachable st'.
Proof.
  induction inps as [|inp rest IH]; simpl; intros st st' Hr Hrun.
  - inversion Hrun; subst; assumption.
  - destruct (gameOver st) eqn:Hgo; [discriminate | ].
    destruct (tick inp st) as [[st1 ev]| | ] eqn:Ht; try discriminate.
    eapply IH; [ | exact Hrun]. eapply reach_tick; eassumption.
Qed.

(** ** Fruit, growth and movement *)

(** C1, as the code has it: on a tick whose new head equals the fruit
    position, the tick completes, the replacement fruit is made of the next
    two values of [std::rand()] reduced modulo [width] and [height], so it
    lies anywhere in the whole grid [0 .. width-1] x [0 .. height-1] (outer
    ring included, the snake's body not avoided), and the snake keeps the
    prepended head and all its former segments. *)
Theorem fruit_respawn_whole_grid (inp : Stdin) (st : State) :
  tick_head inp st = Some (fruit st) ->
  exists st' ev,
    tick inp st = Done (st', ev) /\
    fruit st' = (Z.of_N (rand_seq (rand_idx st)) mod width,
                 Z.of_N (rand_seq (S (rand_idx st))) mod height) /\
    0 <= fst (fruit st') <= width - 1 /\
    0 <= snd (fruit st') <= height - 1 /\
    snake st' = fruit st :: snake st.
Proof.
  intros Hhead. rewrite (tick_eq _ _ _ Hhead), pos_eqb_refl.
  eexists; eexists. split; [reflexivity | ]. cbn [fruit snake fst snd].
  rewrite !Z.rem_mod_nonneg by (unfold width, height; lia).
  assert (Hx := Z.mod_pos_bound (Z.of_N (rand_seq (rand_idx st))) width).
  assert (Hy := Z.mod_pos_bound (Z.of_N (rand_seq (S (rand_idx st)))) height).
  unfold width, height in *. repeat split; lia.
Qed.

(** C5: on a tick on which the fruit is eaten, the tick completes, the
    snake is one element longer than before, and its new head is the
    position the fruit had. *)
Theorem growth_when_fruit_eaten (inp : Stdin) (st : State) :
  tick_head inp st = Some (fruit st) ->
  exists st' ev,
    tick inp st = Done (st', ev) /\
    List.length (snake st') = (List.length (snake st) + 1)%nat /\
    hd_error (snake st') = Some (fruit st).
Proof.
  intros Hhead. rewrite (tick_eq _ _ _ Hhead), pos_eqb_refl.
  eexists; eexists. split; [reflexivity | ]. cbn [snake].
  split; [simpl; lia | reflexivity].
Qed.

(** C6: on a tick on which no fruit is eaten, the tick completes and the
    snake is as long after it as before. *)
Theorem length_kept_without_fruit (inp : Stdin) (st : State) (head : Pos) :
  tick_head inp st = Some head -> head <> fruit st ->
  exists st' ev,
    tick inp st = Done (st', ev) /\
    List.length (snake st') = List.length (snake st).
Proof.
  intros Hhead Hne. rewrite (tick_eq _ _ _ Hhead).
  apply pos_eqb_neq in Hne. rewrite Hne.
  eexists; eexists. split; [reflexivity | ]. cbn [snake].
  apply length_removelast_cons.
Qed.

(** C10: a tick that ends with [gameOver] set has still done the whole
    update: the new head is the front of the snake; if it equals the fruit
    position all former segments are kept and a new fruit is drawn with two
    calls of [std::rand()]; otherwise the last segment is removed and the
    fruit stays. *)
Theorem update_completes_when_game_over
  (inp : Stdin) (st st' : State) (ev : list Event) (head : Pos) :
  tick inp st = Done (st', ev) -> gameOver st' = true ->
  tick_head inp st = Some head ->
  hd_error (snake st') = Some head /\
  (head = fruit st ->
     snake st' = head :: snake st /\
     fruit st' = (Z.rem (Z.of_N (rand_seq (rand_idx st))) width,
                  Z.rem (Z.of_N (rand_seq (S (rand_idx st)))) height) /\
     rand_idx st' = S (S (rand_idx st))) /\
  (head <> fruit st ->
     snake st' = head :: removelast (snake st) /\
     fruit st' = fruit st /\ rand_idx st' = rand_idx st).
Proof.
  intros Htick _ Hhead. rewrite (tick_eq _ _ _ Hhead) in Htick.
  apply Done_pair_inj in Htick. destruct Htick as [Hst' _]. subst st'.
  cbn [snake fruit rand_idx].
  destruct (tick_head_front _ _ _ Hhead) as [h [t [Hsn _]]].
  destruct (pos_eqb head (fruit st)) eqn:E.
  - apply pos_eqb_eq in E. split; [reflexivity | ].
    split; [auto | intros Hne; contradiction].
  - apply pos_eqb_neq in E. rewrite Hsn, removelast_cons2.
    split; [reflexivity | ].
    split; [intros Heq; contradiction | auto].
Qed.

(** ** Collisions *)

(** C3, as the code has it: on a tick started with [gameOver] false, the
    tick completes and [gameOver] is true afterwards if and only if the new
    head lies on or outside the outer ring or equals a segment the snake had
    before the head was prepended. *)
Theorem game_over_iff_wall_or_body (inp : Stdin) (st : State) (head : Pos) :
  gameOver st = false -> tick_head inp st = Some head ->
  exists st' ev,
    tick inp st = Done (st', ev) /\
    (gameOver st' = true <->
     (fst head <= 0 \/ fst head >= width - 1 \/
      snd head <= 0 \/ snd head >= height - 1) \/ In head (snake st)).
Proof.
  intros Hgo Hhead. rewrite (tick_eq _ _ _ Hhead).
  eexists; eexists. split; [reflexivity | ]. cbn [gameOver].
  rewrite Hgo, orb_false_l, orb_true_iff, hits_wall_ring, existsb_pos_In.
  reflexivity.
Qed.

(** C4, as the code has it: on a tick started with [gameOver] false, the
    tick completes and [gameOver] is true afterwards if and only if the new
    head equals the position at some index >= 1 of the snake with the head
    prepended (the tail has not been removed yet), or the wall test of the
    code holds for the new head. *)
Theorem game_over_iff_index_ge1_or_wall
  (inp : Stdin) (st : State) (head : Pos) :
  gameOver st = false -> tick_head inp st = Some head ->
  exists st' ev,
    tick inp st = Done (st', ev) /\
    (gameOver st' = true <->
     (exists i, (1 <= i)%nat /\ nth_error (head :: snake st) i = Some head)
     \/ hits_wall head = true).
Proof.
  intros Hgo Hhead. rewrite (tick_eq _ _ _ Hhead).
  eexists; eexists. split; [reflexivity | ]. cbn [gameOver].
  rewrite Hgo, orb_false_l, orb_true_iff, existsb_pos_In, In_index_ge1.
  tauto.
Qed.

(** C7: in every reachable state in which the game is not over, the
    positions of the snake are pairwise different. *)
Theorem alive_snake_has_no_duplicates (st : State) :
  reachable st -> gameOver st = false -> NoDup (snake st).
Proof.
  intros Hr Hgo. apply reachable_inv in Hr.
  destruct Hr as [_ [_ [_ Halive]]]. apply Halive; assumption.
Qed.

(** ** Input *)

Lemma handle_input_arrow (inp : Stdin) (code : ascii) (d : Z) :
  polled_arrow inp code ->
  handle_input inp d =
  if Ascii.eqb code "A" then 3
  else if Ascii.eqb code "B" then 4
  else if Ascii.eqb code "C" then 2
  else if Ascii.eqb code "D" then 1
  else d.
Proof.
  intros [Hw [Hr1 [Hc [Hr2 [Hs0 Hs1]]]]]. unfold handle_input, kbhit.
  apply Z.gtb_gt in Hw, Hr1. rewrite Hw, Hr1, Hc, Hr2, Hs0, Hs1.
  rewrite !Ascii.eqb_refl. reflexivity.
Qed.

Lemma handle_input_other (inp : Stdin) (d : Z) :
  (forall code, In code ["A"; "B"; "C"; "D"]%char -> ~ polled_arrow inp code) ->
  handle_input inp d = d.
Proof.
  intros Hno. unfold handle_input, kbhit.
  destruct (bytesWaiting inp >? 0) eqn:Hw; [ | reflexivity].
  destruct (read1 inp >? 0) eqn:Hr1; [ | reflexivity].
  destruct (Ascii.eqb (c inp) ESC) eqn:Hc; [ | reflexivity].
  destruct (read2 inp =? 2) eqn:Hr2; [ | reflexivity].
  destruct (Ascii.eqb (seq0 inp) "[") eqn:Hs0; [ | reflexivity].
  apply Z.gtb_gt in Hw, Hr1. apply Ascii.eqb_eq in Hc, Hs0.
  apply Z.eqb_eq in Hr2. cbn [andb].
  assert (Hp : polled_arrow inp (seq1 inp))
    by (unfold polled_arrow; repeat split; assumption).
  destruct (Ascii.eqb (seq1 inp) "A") eqn:EA;
    [apply Ascii.eqb_eq in EA; rewrite EA in Hp;
     exfalso; apply (Hno _ (or_introl eq_refl) Hp) | ].
  destruct (Ascii.eqb (seq1 inp) "B") eqn:EB;
    [apply Ascii.eqb_eq in EB; rewrite EB in Hp;
     exfalso; apply (Hno "B"%char); simpl; tauto | ].
  destruct (Ascii.eqb (seq1 inp) "C") eqn:EC;
    [apply Ascii.eqb_eq in EC; rewrite EC in Hp;
     exfalso; apply (Hno "C"%char); simpl; tauto | ].
  destruct (Ascii.eqb (seq1 inp) "D") eqn:ED;
    [apply Ascii.eqb_eq in ED; rewrite ED in Hp;
     exfalso; apply (Hno "D"%char); simpl; tauto | ].
  reflexivity.
Qed.

Lemma handle_input_no_byte (inp : Stdin) (d : Z) :
  bytesWaiting inp <= 0 -> handle_input inp d = d.
Proof.
  intros Hw. unfold handle_input, kbhit.
  destruct (bytesWaiting inp >? 0) eqn:E; [ | reflexivity].
  apply Z.gtb_gt in E. lia.
Qed.

Lemma tick_dir (inp : Stdin) (st st' : State) (ev : list Event) :
  tick inp st = Done (st', ev) -> dir st' = handle_input inp (dir st).
Proof.
  intros Htick. destruct (tick_done_head _ _ _ _ Htick) as [head Hhead].
  rewrite (tick_eq _ _ _ Hhead) in Htick.
  apply Done_pair_inj in Htick. destruct Htick as [Hst' _]. subst st'.
  reflexivity.
Qed.

(** C8: when the poll of a tick finds a pending key and reads ESC, '[' and
    a code, the direction after the tick is Up for A, Down for B, Right for
    C and Left for D; when what is read is no such sequence the direction is
    unchanged; and when no byte is waiting the direction is unchanged. *)
Theorem arrow_keys_set_direction
  (inp : Stdin) (st st' : State) (ev : list Event) :
  tick inp st = Done (st', ev) ->
  (polled_arrow inp "A" -> dir st' = UP) /\
  (polled_arrow inp "B" -> dir st' = DOWN) /\
  (polled_arrow inp "C" -> dir st' = RIGHT) /\
  (polled_arrow inp "D" -> dir st' = LEFT) /\
  ((forall code, In code ["A"; "B"; "C"; "D"]%char ->
                 ~ polled_arrow inp code) -> dir st' = dir st) /\
  (bytesWaiting inp <= 0 -> dir st' = dir st).
Proof.
  intros Htick. rewrite (tick_dir _ _ _ _ Htick).
  repeat split; intros H.
  - rewrite (handle_input_arrow _ _ _ H); reflexivity.
  - rewrite (handle_input_arrow _ _ _ H); reflexivity.
  - rewrite (handle_input_arrow _ _ _ H); reflexivity.
  - rewrite (handle_input_arrow _ _ _ H); reflexivity.
  - apply handle_input_other; assumption.
  - apply handle_input_no_byte; assumption.
Qed.

(** ** Rendering *)

Lemma for_range_flat_map (body : Z -> list Event) (n : nat) : forall i,
  for_range n i body
  = flat_map body (map (fun k => i + Z.of_nat k) (seq 0 n)).
Proof.
  induction n as [|n IH]; intros i; [reflexivity | ].
  cbn [for_range seq map flat_map]. rewrite IH, Z.add_0_r.
  rewrite <- seq_shift, map_map. do 2 f_equal.
  apply map_ext. intros k. lia.
Qed.

Lemma for_range_upto (body : Z -> list Event) (n : Z) :
  for_range (Z.to_nat n) 0 body = flat_map body (upto n).
Proof.
  rewrite for_range_flat_map. unfold upto. f_equal.
Qed.

Lemma flat_map_single {A B : Type} (f : A -> B) (l : list A) :
  flat_map (fun a => [f a]) l = map f l.
Proof.
  induction l as [|a l IH]; [reflexivity | ]. simpl. rewrite IH. reflexivity.
Qed.

Lemma draw_segments_spec (sn : list Pos) (x y : Z) :
  draw_segments sn x y
  = if existsb (pos_eqb (x, y)) sn then ([Cout "O"], true) else ([], false).
Proof.
  induction sn as [|s rest IH]; [reflexivity | ].
  cbn [draw_segments existsb]. unfold pos_eqb at 1. cbn [fst snd].
  rewrite (Z.eqb_sym x), (Z.eqb_sym y).
  destruct ((fst s =? x) && (snd s =? y)); [reflexivity | exact IH].
Qed.

Lemma draw_cell_spec (st : State) (y x : Z) :
  draw_cell st y x = [Cout (glyph_spec st x y)].
Proof.
  unfold draw_cell, glyph_spec, on_ring.
  destruct ((x =? 0) || (x =? width - 1) || (y =? 0) || (y =? height - 1));
    [reflexivity | ].
  unfold pos_eqb at 1. cbn [fst snd].
  destruct ((x =? fst (fruit st)) && (y =? snd (fruit st))); [reflexivity | ].
  rewrite draw_segments_spec.
  destruct (existsb (pos_eqb (x, y)) (snake st)); reflexivity.
Qed.

Lemma draw_row_spec (st : State) (y : Z) : draw_row st y = row_spec st y.
Proof.
  unfold draw_row, row_spec. rewrite for_range_upto.
  rewrite (flat_map_ext _ (fun x => [Cout (glyph_spec st x y)]))
    by (intros x; apply draw_cell_spec).
  rewrite flat_map_single. reflexivity.
Qed.

(** The place of a cell in the frame of the specification: the glyph of
    the cell (x,y) is the event number y * (width + 1) + x, and the newline
    of row y the event number y * (width + 1) + width. *)
Lemma nth_error_flat_map_rows {A B : Type} (f : A -> list B) (m : nat) :
  (forall a, List.length (f a) = m) ->
  forall l i j, (j < m)%nat ->
  nth_error (flat_map f l) (i * m + j)
  = match nth_error l i with
    | Some a => nth_error (f a) j
    | None => None
    end.
Proof.
  intros Hlen. induction l as [|a l IH]; intros i j Hj.
  - cbn [flat_map]. rewrite !nth_error_nil. reflexivity.
  - cbn [flat_map]. destruct i as [|i].
    + simpl. apply nth_error_app1. rewrite Hlen. exact Hj.
    + rewrite nth_error_app2 by (rewrite Hlen; simpl; lia).
      rewrite Hlen. replace (S i * m + j - m)%nat with (i * m + j)%nat
        by (simpl; lia).
      simpl. apply IH. exact Hj.
Qed.

Lemma nth_error_upto (n : Z) (i : nat) :
  (i < Z.to_nat n)%nat -> nth_error (upto n) i = Some (Z.of_nat i).
Proof.
  intros Hi. unfold upto. rewrite nth_error_map, nth_error_seq.
  apply Nat.ltb_lt in Hi. rewrite Hi. reflexivity.
Qed.

Lemma length_row_spec (st : State) (y : Z) :
  List.length (row_spec st y) = S (Z.to_nat width).
Proof.
  unfold row_spec, upto.
  rewrite length_app, !length_map, length_seq. simpl. lia.
Qed.

Lemma frame_spec_cell (st : State) (x y : nat) :
  (x < Z.to_nat width)%nat -> (y < Z.to_nat height)%nat ->
  nth_error (frame_spec st) (y * S (Z.to_nat width) + x)
  = Some (Cout (glyph_spec st (Z.of_nat x) (Z.of_nat y))).
Proof.
  intros Hx Hy.
  assert (H : nth_error (flat_map (row_spec st) (upto height))
                (y * S (Z.to_nat width) + x)
              = Some (Cout (glyph_spec st (Z.of_nat x) (Z.of_nat y)))).
  { rewrite (nth_error_flat_map_rows _ _ (length_row_spec st)) by lia.
    rewrite (nth_error_upto _ _ Hy). unfold row_spec.
    rewrite nth_error_app1
      by (unfold upto; rewrite !length_map, length_seq; exact Hx).
    rewrite nth_error_map, (nth_error_upto _ _ Hx). reflexivity. }
  unfold frame_spec. rewrite nth_error_app1; [exact H | ].
  apply nth_error_Some. rewrite H. discriminate.
Qed.

Lemma frame_spec_newline (st : State) (y : nat) :
  (y < Z.to_nat height)%nat ->
  nth_error (frame_spec st) (y * S (Z.to_nat width) + Z.to_nat width)
  = Some (Cout (str1 NL)).
Proof.
  intros Hy.
  assert (H : nth_error (flat_map (row_spec st) (upto height))
                (y * S (Z.to_nat width) + Z.to_nat width)
              = Some (Cout (str1 NL))).
  { rewrite (nth_error_flat_map_rows _ _ (length_row_spec st)) by lia.
    rewrite (nth_error_upto _ _ Hy). unfold row_spec.
    rewrite nth_error_app2
      by (unfold upto; rewrite !length_map, length_seq; lia).
    unfold upto. rewrite !length_map, length_seq, Nat.sub_diag.
    reflexivity. }
  unfold frame_spec. rewrite nth_error_app1; [exact H | ].
  apply nth_error_Some. rewrite H. discriminate.
Qed.

(** C9: what the program writes for one frame is, after the clear-screen
    sequence, for each row y from 0 to height-1 and in it each column x from
    0 to width-1 exactly one glyph, '#' on the outer ring, else 'F' on the
    fruit, else 'O' where some snake segment is, else ' ', then a newline at
    the end of each row, and after the last row the fixed trailer line. *)
Theorem draw_is_frame_spec (st : State) :
  draw st = Cout clear_screen :: frame_spec st.
Proof.
  unfold draw, frame_spec. rewrite for_range_upto.
  rewrite (flat_map_ext _ (row_spec st)) by (intros y; apply draw_row_spec).
  reflexivity.
Qed.

(** ** The loop and the end of the game *)

Lemma game_loop_alive (fuel : nat) (keys : nat -> Stdin) (t : nat) (st : State) :
  gameOver st = false ->
  game_loop (S fuel) keys t st =
  match tick (keys t) st with
  | Done (st1, ev) =>
      match game_loop fuel keys (S t) st1 with
      | Done (st2, ev2) => Done (st2, ev ++ ev2)
      | Undef => Undef
      | Timeout => Timeout
      end
  | Undef => Undef
  | Timeout => Timeout
  end.
Proof. intros H. cbn [game_loop]. rewrite H. reflexivity. Qed.

Lemma game_loop_over (fuel : nat) (keys : nat -> Stdin) (t : nat) (st : State) :
  gameOver st = true -> game_loop fuel keys t st = Done (st, []).
Proof. intros H. destruct fuel; cbn [game_loop]; rewrite H; reflexivity. Qed.

Lemma tick_events (inp : Stdin) (st st' : State) (ev : list Event) :
  tick inp st = Done (st', ev) -> ev = draw st ++ [SleepMs 100].
Proof.
  intros Htick. destruct (tick_done_head _ _ _ _ Htick) as [head Hhead].
  rewrite (tick_eq _ _ _ Hhead) in Htick.
  apply Done_pair_inj in Htick. destruct Htick as [_ Hev]. congruence.
Qed.

Lemma glyph_spec_cases (st : State) (x y : Z) :
  glyph_spec st x y = "#"%string \/ glyph_spec st x y = "F"%string \/
  glyph_spec st x y = "O"%string \/ glyph_spec st x y = " "%string.
Proof.
  unfold glyph_spec.
  destruct (on_ring x y); [tauto | ].
  destruct (pos_eqb (x, y) (fruit st)); [tauto | ].
  destruct (existsb (pos_eqb (x, y)) (snake st)); tauto.
Qed.

Lemma draw_no_game_over_msg (st : State) (e : Event) :
  In e (draw st) -> is_game_over_msg e = false.
Proof.
  unfold draw. rewrite for_range_upto. rewrite !in_app_iff, in_flat_map.
  intros [H | [[y [_ H]] | H]].
  - destruct H as [<- | []]. reflexivity.
  - rewrite draw_row_spec in H. unfold row_spec in H.
    rewrite in_app_iff, in_map_iff in H.
    destruct H as [[x [<- _]] | [<- | []]]; [ | reflexivity].
    destruct (glyph_spec_cases st x y) as [E | [E | [E | E]]];
      rewrite E; reflexivity.
  - destruct H as [<- | []]. reflexivity.
Qed.

Lemma game_loop_trace (keys : nat -> Stdin) (fuel : nat) :
  forall t st stf tr,
  gameOver st = false -> game_loop fuel keys t st = Done (stf, tr) ->
  (forall e, In e tr -> is_game_over_msg e = false) /\
  exists pre st_last t_last,
    tr = pre ++ draw st_last ++ [SleepMs 100] /\
    gameOver st_last = false /\
    tick (keys t_last) st_last = Done (stf, draw st_last ++ [SleepMs 100]) /\
    gameOver stf = true.
Proof.
  induction fuel as [|fuel IH]; intros t st stf tr Hgo Hrun.
  - cbn [game_loop] in Hrun. rewrite Hgo in Hrun. discriminate.
  - rewrite (game_loop_alive _ _ _ _ Hgo) in Hrun.
    destruct (tick (keys t) st) as [[st1 ev] | | ] eqn:Ht; try discriminate.
    assert (Hev := tick_events _ _ _ _ Ht). subst ev.
    assert (Hdraw : forall e, In e (draw st ++ [SleepMs 100]) ->
                              is_game_over_msg e = false).
    { intros e He. apply in_app_iff in He. destruct He as [He | [<- | []]];
        [eapply draw_no_game_over_msg; eassumption | reflexivity]. }
    destruct (gameOver st1) eqn:Hgo1.
    + rewrite (game_loop_over _ _ _ _ Hgo1) in Hrun.
      apply Done_pair_inj in Hrun. destruct Hrun as [<- <-].
      rewrite app_nil_r. split; [exact Hdraw | ].
      exists [], st, t. split; [reflexivity | ]. repeat split; assumption.
    + destruct (game_loop fuel keys (S t) st1) as [[st2 ev2] | | ] eqn:Hl;
        try discriminate.
      apply Done_pair_inj in Hrun. destruct Hrun as [<- <-].
      destruct (IH _ _ _ _ Hgo1 Hl) as [Hno [pre [sl [tl [Etr [Hg [Htl Hgf]]]]]]].
      split.
      * intros e He. apply in_app_iff in He. destruct He; auto.
      * exists ((draw st ++ [SleepMs 100]) ++ pre), sl, tl.
        rewrite Etr.
        split; [rewrite <- !app_assoc; reflexivity | ].
        repeat split; assumption.
Qed.

Lemma game_loop_exit
  (keys : nat -> Stdin) (fuel t : nat) (st st' : State) (ev : list Event) :
  gameOver st = false -> tick (keys t) st = Done (st', ev) ->
  gameOver st' = true ->
  game_loop (S fuel) keys t st = Done (st', draw st ++ [SleepMs 100]).
Proof.
  intros Hgo Htick Hgo'. rewrite (game_loop_alive _ _ _ _ Hgo), Htick.
  rewrite (game_loop_over _ _ _ _ Hgo'), app_nil_r.
  rewrite (tick_events _ _ _ _ Htick). reflexivity.
Qed.

(** C2, as the code has it: when a tick sets [gameOver], the loop ends
    right after that tick, so that what the loop does from the top of that
    tick on is the render of the state the tick started from (the state
    before the move, not the one in which the snake has collided) and the
    delay; and every run of [main] that ends returns 0, has written the
    message [Game Over!] exactly once, and ends with such a render, the
    delay, the restore of the terminal and the message. *)
Theorem game_over_ends_run (keys : nat -> Stdin) :
  (forall fuel t st st' ev,
     gameOver st = false -> tick (keys t) st = Done (st', ev) ->
     gameOver st' = true ->
     game_loop (S fuel) keys t st = Done (st', draw st ++ [SleepMs 100])) /\
  (forall fuel code tr,
     main fuel keys = Done (code, tr) ->
     code = 0 /\
     count_occ Event_eq_dec tr (Cout game_over_msg) = 1%nat /\
     exists pre st t st',
       tr = pre ++ draw st
                ++ [SleepMs 100; SetRaw false; Cout game_over_msg] /\
       gameOver st = false /\
       tick (keys t) st = Done (st', draw st ++ [SleepMs 100]) /\
       gameOver st' = true).
Proof.
  split.
  - intros fuel t st st' ev. apply game_loop_exit.
  - intros fuel code tr Hmain. unfold main in Hmain.
    destruct (game_loop fuel keys 0%nat init) as [[stf ev] | | ] eqn:Hl;
      try discriminate.
    apply Done_pair_inj in Hmain. destruct Hmain as [<- <-].
    assert (Hgo0 : gameOver init = false) by reflexivity.
    destruct (game_loop_trace _ _ _ _ _ _ Hgo0 Hl)
      as [Hno [pre [sl [tl [Etr [Hg [Htl Hgf]]]]]]].
    split; [reflexivity | ]. split.
    + rewrite !count_occ_app.
      assert (Hz : count_occ Event_eq_dec ev (Cout game_over_msg) = 0%nat).
      { apply count_occ_not_In. intros Hin. apply Hno in Hin.
        discriminate Hin. }
      rewrite Hz. reflexivity.
    + exists (SetRaw true :: pre), sl, tl, stf. rewrite Etr.
      split; [ | repeat split; assumption].
      cbn [app]. rewrite <- !app_assoc. reflexivity.
Qed.

End Game.

(** ** Concrete runs *)

Lemma init_sample : init sample_rand = st_start.
Proof. reflexivity. Qed.

Lemma reachable_start : reachable sample_rand st_start.
Proof. rewrite <- init_sample. apply reach_init. Qed.

Lemma tick_start :
  tick sample_rand no_key st_start
  = Done (st_grown, draw st_start ++ [SleepMs 100]).
Proof. vm_compute. reflexivity. Qed.

Lemma reachable_grown : reachable sample_rand st_grown.
Proof.
  eapply reach_tick; [apply reachable_start | reflexivity | apply tick_start].
Qed.

Lemma tick_grown_left :
  tick sample_rand (arrow "D") st_grown
  = Done (st_reversed, draw st_grown ++ [SleepMs 100]).
Proof. vm_compute. reflexivity. Qed.

Lemma reachable_near_wall : reachable rand19 st_near_wall.
Proof.
  apply (reachable_run_ticks rand19 (repeat no_key 8) (init rand19));
    [apply reach_init | vm_compute; reflexivity].
Qed.

Lemma tick_near_wall :
  tick rand19 no_key st_near_wall
  = Done (st_on_wall, draw st_near_wall ++ [SleepMs 100]).
Proof. vm_compute. reflexivity. Qed.

(** Scenario A of the specification: five ticks to the right without a
    key. *)
Example scenario_A :
  run_ticks rand19 (repeat no_key 5) (init rand19)
  = Some (mkState [(15, 10)] 2 (19, 19) false 2).
Proof. vm_compute. reflexivity. Qed.

(** Scenario C: moving left from x = 1 ends the game. *)
Example scenario_C :
  run_ticks rand19 [no_key] (mkState [(1, 10)] 1 (19, 19) false 2)
  = Some (mkState [(0, 10)] 1 (19, 19) true 2).
Proof. vm_compute. reflexivity. Qed.

(** Scenario D: a straight snake of three moving on does not collide. *)
Example scenario_D :
  run_ticks rand19 [no_key] (mkState [(5, 5); (6, 5); (7, 5)] 1 (19, 19) false 2)
  = Some (mkState [(4, 5); (5, 5); (6, 5)] 1 (19, 19) false 2).
Proof. vm_compute. reflexivity. Qed.

(** The whole program on the run towards the right wall: eight iterations
    are not enough, the ninth ends the game; [main] returns 0 and the last
    thing written is the message. *)
Example main_needs_nine_ticks :
  main rand19 8 (fun _ => no_key) = Timeout.
Proof. vm_compute. reflexivity. Qed.

Example main_sample_run :
  match main rand19 9 (fun _ => no_key) with
  | Done (code, tr) =>
      code = 0 /\ last tr (SetRaw true) = Cout game_over_msg /\
      List.length (filter (fun e => match e with SleepMs _ => true | _ => false end) tr)
      = 9%nat
  | _ => False
  end.
Proof. vm_compute. repeat split; reflexivity. Qed.

(** Every cell of the grid, the outer ring and the cells of the snake
    included, can be the next fruit: nothing is drawn again. *)
Lemma fruit_respawn_any_cell (inp : Stdin) (st : State) (x y : Z) :
  0 <= x < width -> 0 <= y < height ->
  tick_head inp st = Some (fruit st) ->
  exists rand_seq st' ev,
    tick rand_seq inp st = Done (st', ev) /\ fruit st' = (x, y).
Proof.
  intros Hx Hy Hhead.
  exists (fun n => if Nat.eqb n (rand_idx st) then Z.to_N x else Z.to_N y).
  rewrite (tick_eq _ _ _ _ Hhead), pos_eqb_refl.
  eexists; eexists. split; [reflexivity | ]. cbn [fruit].
  rewrite Nat.eqb_refl.
  replace (Nat.eqb (S (rand_idx st)) (rand_idx st)) with false
    by (symmetry; apply Nat.eqb_neq; lia).
  rewrite !Z2N.id by lia.
  rewrite !Z.rem_small by lia. reflexivity.
Qed.

(** ** Instances of the theorems and the inputs at which the specification
    and the code differ *)

Lemma fruit_respawn_whole_grid_witness :
  tick_head no_key st_start = Some (fruit st_start) /\
  exists st' ev,
    tick sample_rand no_key st_start = Done (st', ev) /\
    fruit st' = (Z.of_N (sample_rand (rand_idx st_start)) mod width,
                 Z.of_N (sample_rand (S (rand_idx st_start))) mod height) /\
    0 <= fst (fruit st') <= width - 1 /\
    0 <= snd (fruit st') <= height - 1 /\
    snake st' = fruit st_start :: snake st_start.
Proof.
  split; [reflexivity | ].
  apply (fruit_respawn_whole_grid sample_rand no_key st_start). reflexivity.
Defined.

(** C1 as stated fails: in the reachable start state of the sample run the
    snake steps onto the fruit at (11,10), and the replacement fruit is
    (0,5), on the left wall and not in the interior. *)
Lemma respawned_fruit_on_outer_ring :
  reachable sample_rand st_start /\
  tick_head no_key st_start = Some (fruit st_start) /\
  tick sample_rand no_key st_start
  = Done (st_grown, draw st_start ++ [SleepMs 100]) /\
  fruit st_grown = (0, 5) /\
  ~ (1 <= fst (fruit st_grown) <= width - 2).
Proof.
  split; [apply reachable_start | ]. split; [reflexivity | ].
  split; [apply tick_start | ]. split; [reflexivity | ].
  simpl. lia.
Qed.

Lemma growth_when_fruit_eaten_witness :
  tick_head no_key st_start = Some (fruit st_start) /\
  exists st' ev,
    tick sample_rand no_key st_start = Done (st', ev) /\
    List.length (snake st') = (List.length (snake st_start) + 1)%nat /\
    hd_error (snake st') = Some (fruit st_start).
Proof.
  split; [reflexivity | ].
  apply (growth_when_fruit_eaten sample_rand no_key st_start). reflexivity.
Defined.

Lemma length_kept_without_fruit_witness :
  tick_head (arrow "D") st_grown = Some (10, 10) /\
  (10, 10) <> fruit st_grown /\
  exists st' ev,
    tick sample_rand (arrow "D") st_grown = Done (st', ev) /\
    List.length (snake st') = List.length (snake st_grown).
Proof.
  split; [reflexivity | ]. split; [discriminate | ].
  apply (length_kept_without_fruit sample_rand (arrow "D") st_grown (10, 10));
    [reflexivity | discriminate].
Defined.

Lemma update_completes_when_game_over_witness :
  tick sample_rand (arrow "D") st_grown
  = Done (st_reversed, draw st_grown ++ [SleepMs 100]) /\
  gameOver st_reversed = true /\
  tick_head (arrow "D") st_grown = Some (10, 10) /\
  hd_error (snake st_reversed) = Some (10, 10) /\
  ((10, 10) = fruit st_grown ->
     snake st_reversed = (10, 10) :: snake st_grown /\
     fruit st_reversed
     = (Z.rem (Z.of_N (sample_rand (rand_idx st_grown))) width,
        Z.rem (Z.of_N (sample_rand (S (rand_idx st_grown)))) height) /\
     rand_idx st_reversed = S (S (rand_idx st_grown))) /\
  ((10, 10) <> fruit st_grown ->
     snake st_reversed = (10, 10) :: removelast (snake st_grown) /\
     fruit st_reversed = fruit st_grown /\
     rand_idx st_reversed = rand_idx st_grown).
Proof.
  split; [apply tick_grown_left | ]. split; [reflexivity | ].
  split; [reflexivity | ].
  apply (update_completes_when_game_over sample_rand (arrow "D") st_grown
           st_reversed (draw st_grown ++ [SleepMs 100]) (10, 10));
    [apply tick_grown_left | reflexivity | reflexivity].
Defined.

Lemma game_over_iff_wall_or_body_witness :
  gameOver st_grown = false /\
  tick_head (arrow "D") st_grown = Some (10, 10) /\
  exists st' ev,
    tick sample_rand (arrow "D") st_grown = Done (st', ev) /\
    (gameOver st' = true <->
     (fst (10, 10) <= 0 \/ fst (10, 10) >= width - 1 \/
      snd (10, 10) <= 0 \/ snd (10, 10) >= height - 1)
     \/ In (10, 10) (snake st_grown)).
Proof.
  split; [reflexivity | ]. split; [reflexivity | ].
  apply (game_over_iff_wall_or_body sample_rand (arrow "D") st_grown (10, 10));
    reflexivity.
Defined.

(** C3 as stated fails: in the reachable state of the sample run in which
    the snake is [(11,10); (10,10)] and moves right, the key Left makes the
    new head (10,10); it is well inside the ring, and the game is over,
    because the head meets the tail that is still there. *)
Lemma game_over_inside_the_ring :
  reachable sample_rand st_grown /\
  gameOver st_grown = false /\
  tick_head (arrow "D") st_grown = Some (10, 10) /\
  tick sample_rand (arrow "D") st_grown
  = Done (st_reversed, draw st_grown ++ [SleepMs 100]) /\
  gameOver st_reversed = true /\
  ~ on_or_outside_ring (10, 10).
Proof.
  split; [apply reachable_grown | ]. split; [reflexivity | ].
  split; [reflexivity | ]. split; [apply tick_grown_left | ].
  split; [reflexivity | ].
  unfold on_or_outside_ring, width, height. simpl. lia.
Qed.

Lemma game_over_iff_index_ge1_or_wall_witness :
  gameOver st_near_wall = false /\
  tick_head no_key st_near_wall = Some (19, 10) /\
  exists st' ev,
    tick rand19 no_key st_near_wall = Done (st', ev) /\
    (gameOver st' = true <->
     (exists i, (1 <= i)%nat /\
                nth_error ((19, 10) :: snake st_near_wall) i = Some (19, 10))
     \/ hits_wall (19, 10) = true).
Proof.
  split; [reflexivity | ]. split; [reflexivity | ].
  apply (game_over_iff_index_ge1_or_wall rand19 no_key st_near_wall (19, 10));
    reflexivity.
Defined.

(** C4 as stated fails: in the reachable state in which the snake is
    [(18,10)] and moves right, the new head (19,10) is on the wall and the
    game is over, but the head equals no position at an index >= 1 of
    [(19,10); (18,10)]. *)
Lemma game_over_without_self_collision :
  reachable rand19 st_near_wall /\
  gameOver st_near_wall = false /\
  tick_head no_key st_near_wall = Some (19, 10) /\
  tick rand19 no_key st_near_wall
  = Done (st_on_wall, draw st_near_wall ++ [SleepMs 100]) /\
  gameOver st_on_wall = true /\
  ~ (exists i, (1 <= i)%nat /\
               nth_error ((19, 10) :: snake st_near_wall) i = Some (19, 10)).
Proof.
  split; [apply reachable_near_wall | ]. split; [reflexivity | ].
  split; [reflexivity | ]. split; [apply tick_near_wall | ].
  split; [reflexivity | ].
  intros [i [Hi Hn]]. destruct i as [|[|i]].
  - lia.
  - simpl in Hn. congruence.
  - simpl in Hn. destruct i; discriminate Hn.
Qed.

Lemma alive_snake_has_no_duplicates_witness :
  reachable sample_rand st_grown /\ gameOver st_grown = false /\
  NoDup (snake st_grown).
Proof.
  split; [apply reachable_grown | ]. split; [reflexivity | ].
  apply (alive_snake_has_no_duplicates sample_rand st_grown);
    [apply reachable_grown | reflexivity].
Defined.

Lemma arrow_keys_set_direction_witness :
  tick sample_rand (arrow "A") st_start
  = Done (mkState [(10, 9)] 3 (11, 10) false 2,
          draw st_start ++ [SleepMs 100]) /\
  polled_arrow (arrow "A") "A" /\
  dir (mkState [(10, 9)] 3 (11, 10) false 2) = UP.
Proof.
  assert (Ht : tick sample_rand (arrow "A") st_start
               = Done (mkState [(10, 9)] 3 (11, 10) false 2,
                       draw st_start ++ [SleepMs 100]))
    by (vm_compute; reflexivity).
  assert (Hp : polled_arrow (arrow "A") "A")
    by (unfold polled_arrow; simpl; repeat split; reflexivity).
  split; [exact Ht | ]. split; [exact Hp | ].
  exact (proj1 (arrow_keys_set_direction sample_rand (arrow "A") st_start
                  _ _ Ht) Hp).
Defined.

Lemma game_over_ends_run_witness :
  gameOver st_near_wall = false /\
  tick rand19 no_key st_near_wall
  = Done (st_on_wall, draw st_near_wall ++ [SleepMs 100]) /\
  gameOver st_on_wall = true /\
  game_loop rand19 1 (fun _ => no_key) 8 st_near_wall
  = Done (st_on_wall, draw st_near_wall ++ [SleepMs 100]).
Proof.
  split; [reflexivity | ]. split; [apply tick_near_wall | ].
  split; [reflexivity | ].
  apply (proj1 (game_over_ends_run rand19 (fun _ => no_key))
           0%nat 8%nat st_near_wall st_on_wall
           (draw st_near_wall ++ [SleepMs 100]));
    [reflexivity | apply tick_near_wall | reflexivity].
Defined.

(** C2 as stated fails: in the sample run towards the right wall, the
    tick that sets [gameOver] starts in the reachable state with the snake at
    (18,10); the loop ends after it, and the only render of that tick is the
    frame of that state, with 'O' at (18,10), which is not the frame of the
    state in which the snake has hit the wall; that state is never drawn. *)
Lemma last_render_precedes_collision :
  reachable rand19 st_near_wall /\
  gameOver st_near_wall = false /\
  game_loop rand19 1 (fun _ => no_key) 8 st_near_wall
  = Done (st_on_wall, draw st_near_wall ++ [SleepMs 100]) /\
  gameOver st_on_wall = true /\
  nth_error (draw st_near_wall) 229 = Some (Cout "O") /\
  nth_error (draw st_on_wall) 229 = Some (Cout " ") /\
  draw st_near_wall <> draw st_on_wall.
Proof.
  split; [apply reachable_near_wall | ]. split; [reflexivity | ].
  split; [vm_compute; reflexivity | ]. split; [reflexivity | ].
  split; [vm_compute; reflexivity | ]. split; [vm_compute; reflexivity | ].
  intros E. apply (f_equal (fun l => nth_error l 229)) in E.
  vm_compute in E. discriminate E.
Qed.

(** ** The terminal mode *)

Lemma raw_lflag_bits (ICANON ECHO l i : Z) :
  0 <= l < 2 ^ 32 -> 0 <= i ->
  Z.testbit (raw_lflag ICANON ECHO l) i
  = Z.testbit l i && negb (Z.testbit ICANON i || Z.testbit ECHO i).
Proof.
  intros Hl Hi. unfold raw_lflag. rewrite Z.land_spec.
  destruct (Z.lt_ge_cases i 32) as [Hlt | Hge].
  - rewrite Z.mod_pow2_bits_low by lia.
    rewrite Z.lnot_spec, Z.lor_spec by assumption. reflexivity.
  - rewrite Z.mod_pow2_bits_high by lia. rewrite andb_false_r.
    rewrite <- (Z.mod_small l (2 ^ 32)) by assumption.
    rewrite Z.mod_pow2_bits_high by lia. reflexivity.
Qed.

Lemma raw_lflag_range (ICANON ECHO l : Z) :
  0 <= l < 2 ^ 32 -> 0 <= raw_lflag ICANON ECHO l < 2 ^ 32.
Proof.
  intros Hl. unfold raw_lflag.
  set (m := Z.lnot (Z.lor ICANON ECHO) mod 2 ^ 32).
  assert (E : Z.land l m = Z.land l m mod 2 ^ 32).
  { rewrite <- (Z.land_ones (Z.land l m) 32) by lia.
    rewrite <- Z.land_assoc, (Z.land_comm m), Z.land_assoc.
    rewrite Z.land_ones by lia.
    rewrite (Z.mod_small l) by assumption. reflexivity. }
  rewrite E. apply Z.mod_pos_bound. lia.
Qed.

Lemma run_terminal_app (ICANON ECHO : Z) (a b : list Event) : forall w,
  run_terminal ICANON ECHO (a ++ b) w
  = run_terminal ICANON ECHO b (run_terminal ICANON ECHO a w).
Proof.
  induction a as [|e a IH]; intros w; [reflexivity | ].
  destruct e; simpl; apply IH.
Qed.

Lemma run_terminal_skip (ICANON ECHO : Z) (tr : list Event) : forall w,
  (forall e, In e tr -> is_set_raw e = false) ->
  run_terminal ICANON ECHO tr w = w.
Proof.
  induction tr as [|e tr IH]; intros w H; [reflexivity | ].
  assert (He := H e (or_introl eq_refl)).
  destruct e; simpl in *; try discriminate;
    apply IH; intros e' He'; apply H; right; assumption.
Qed.

Lemma draw_events_cout (st : State) (e : Event) :
  In e (draw st) -> exists s, e = Cout s.
Proof.
  unfold draw. rewrite for_range_upto. rewrite !in_app_iff, in_flat_map.
  intros [H | [[y [_ H]] | H]].
  - destruct H as [<- | []]. eauto.
  - rewrite draw_row_spec in H. unfold row_spec in H.
    rewrite in_app_iff, in_map_iff in H.
    destruct H as [[x [<- _]] | [<- | []]]; eauto.
  - destruct H as [<- | []]. eauto.
Qed.

Lemma game_loop_no_set_raw (rand_seq : nat -> N) (keys : nat -> Stdin)
  (fuel : nat) : forall t st stf tr,
  game_loop rand_seq fuel keys t st = Done (stf, tr) ->
  forall e, In e tr -> is_set_raw e = false.
Proof.
  induction fuel as [|fuel IH]; intros t st stf tr Hrun e He.
  - cbn [game_loop] in Hrun. destruct (gameOver st); [ | discriminate].
    apply Done_pair_inj in Hrun. destruct Hrun as [_ <-]. destruct He.
  - destruct (gameOver st) eqn:Hgo.
    + rewrite (game_loop_over _ _ _ _ _ Hgo) in Hrun.
      apply Done_pair_inj in Hrun. destruct Hrun as [_ <-]. destruct He.
    + rewrite (game_loop_alive _ _ _ _ _ Hgo) in Hrun.
      destruct (tick rand_seq (keys t) st) as [[st1 ev] | | ] eqn:Ht;
        try discriminate.
      destruct (game_loop rand_seq fuel keys (S t) st1)
        as [[st2 ev2] | | ] eqn:Hl; try discriminate.
      apply Done_pair_inj in Hrun. destruct Hrun as [_ <-].
      apply in_app_iff in He. destruct He as [He | He].
      * rewrite (tick_events _ _ _ _ _ Ht) in He.
        apply in_app_iff in He. destruct He as [He | [<- | []]];
          [ | reflexivity].
        apply draw_events_cout in He. destruct He as [s ->]. reflexivity.
      * eapply IH; eassumption.
Qed.

(** X1: [setRaw(true)] on a terminal whose local flag word is a 32-bit
    value clears in it exactly the bits of [ICANON] and [ECHO], keeps every
    other bit and every other field of the attributes, and saves the former
    attributes in [oldt]. *)
Theorem raw_mode_clears_canon_and_echo (ICANON ECHO : Z) (w : Tty) :
  0 <= c_lflag (attrs w) < 2 ^ 32 ->
  (forall i, 0 <= i ->
     Z.testbit (c_lflag (attrs (setRaw ICANON ECHO true w))) i
     = Z.testbit (c_lflag (attrs w)) i
       && negb (Z.testbit ICANON i || Z.testbit ECHO i)) /\
  0 <= c_lflag (attrs (setRaw ICANON ECHO true w)) < 2 ^ 32 /\
  c_iflag (attrs (setRaw ICANON ECHO true w)) = c_iflag (attrs w) /\
  c_oflag (attrs (setRaw ICANON ECHO true w)) = c_oflag (attrs w) /\
  c_cflag (attrs (setRaw ICANON ECHO true w)) = c_cflag (attrs w) /\
  c_cc (attrs (setRaw ICANON ECHO true w)) = c_cc (attrs w) /\
  oldt (setRaw ICANON ECHO true w) = attrs w.
Proof.
  intros Hl. cbn [setRaw attrs oldt c_lflag c_iflag c_oflag c_cflag c_cc].
  split; [intros i Hi; apply raw_lflag_bits; assumption | ].
  split; [apply raw_lflag_range; assumption | ].
  repeat split; reflexivity.
Qed.

(** X2: every run of [main] that ends leaves the attributes of the
    terminal exactly as it found them: the loop never touches them, and the
    [setRaw(false)] after the loop puts back what [setRaw(true)] saved. *)
Theorem main_restores_terminal
  (rand_seq : nat -> N) (ICANON ECHO : Z) (fuel : nat) (keys : nat -> Stdin)
  (code : Z) (tr : list Event) (w : Tty) :
  main rand_seq fuel keys = Done (code, tr) ->
  attrs (run_terminal ICANON ECHO tr w) = attrs w.
Proof.
  intros Hmain. unfold main in Hmain.
  destruct (game_loop rand_seq fuel keys 0%nat (init rand_seq))
    as [[stf ev] | | ] eqn:Hl; try discriminate.
  apply Done_pair_inj in Hmain. destruct Hmain as [_ <-].
  rewrite !run_terminal_app.
  rewrite (run_terminal_skip _ _ ev)
    by (eapply game_loop_no_set_raw; eassumption).
  reflexivity.
Qed.

(** X3: the saved attributes are overwritten by every [setRaw(true)]: after
    two such calls in a row on a terminal that has a bit of [ICANON] or
    [ECHO] set, [setRaw(false)] does not bring back the original attributes
    but leaves the terminal in the raw mode of the first call. *)
Theorem second_enable_loses_saved_attributes
  (ICANON ECHO : Z) (w : Tty) (i : Z) :
  0 <= c_lflag (attrs w) < 2 ^ 32 -> 0 <= i ->
  Z.testbit (c_lflag (attrs w)) i = true ->
  Z.testbit ICANON i || Z.testbit ECHO i = true ->
  attrs (setRaw ICANON ECHO false
           (setRaw ICANON ECHO true (setRaw ICANON ECHO true w)))
  = attrs (setRaw ICANON ECHO true w) /\
  attrs (setRaw ICANON ECHO false
           (setRaw ICANON ECHO true (setRaw ICANON ECHO true w)))
  <> attrs w.
Proof.
  intros Hl Hi Hbit Hmask. split; [reflexivity | ].
  cbn [setRaw attrs oldt]. intros E.
  apply (f_equal c_lflag) in E. cbn [c_lflag] in E.
  apply (f_equal (fun l => Z.testbit l i)) in E.
  rewrite raw_lflag_bits in E by assumption.
  rewrite Hbit, Hmask in E. discriminate E.
Qed.

(** ** More invariants of the reachable states *)

Lemma tick_step (rand_seq : nat -> N) (inp : Stdin) (st st' : State)
  (ev : list Event) :
  tick rand_seq inp st = Done (st', ev) ->
  exists h t head,
    snake st = h :: t /\ head = move (handle_input inp (dir st)) h /\
    st' = mkState
            (if pos_eqb head (fruit st) then head :: snake st
             else removelast (head :: snake st))
            (handle_input inp (dir st))
            (if pos_eqb head (fruit st)
             then (Z.rem (Z.of_N (rand_seq (rand_idx st))) width,
                   Z.rem (Z.of_N (rand_seq (S (rand_idx st)))) height)
             else fruit st)
            (gameOver st || hits_wall head
             || existsb (fun p => pos_eqb p head) (snake st))
            (if pos_eqb head (fruit st) then S (S (rand_idx st))
             else rand_idx st).
Proof.
  intros Htick. destruct (tick_done_head _ _ _ _ _ Htick) as [head Hhead].
  rewrite (tick_eq _ _ _ _ Hhead) in Htick.
  apply Done_pair_inj in Htick. destruct Htick as [Hst' _].
  destruct (tick_head_front _ _ _ Hhead) as [h [t [Hsn Hmv]]].
  exists h, t, head. repeat split; [assumption | assumption | ].
  symmetry; exact Hst'.
Qed.

Lemma move_adjacent (d : Z) (h : Pos) :
  1 <= d <= 4 -> adjacent (move d h) h.
Proof.
  intros Hd. assert (E : d = 1 \/ d = 2 \/ d = 3 \/ d = 4) by lia.
  unfold adjacent. destruct E as [-> | [-> | [-> | ->]]]; simpl; lia.
Qed.

Lemma chain_removelast (l : list Pos) : chain l -> chain (removelast l).
Proof.
  induction l as [|a l IH]; [trivial | ].
  destruct l as [|b l]; [trivial | ].
  intros [Hab Hc]. rewrite removelast_cons2.
  destruct l as [|c l]; [exact I | ].
  rewrite removelast_cons2. split; [exact Hab | ].
  rewrite <- removelast_cons2. apply IH. exact Hc.
Qed.

Lemma rem_in_range (r : N) (n : Z) : 0 < n -> 0 <= Z.rem (Z.of_N r) n <= n - 1.
Proof.
  intros Hn. assert (H := Z.rem_bound_pos (Z.of_N r) n). lia.
Qed.

Lemma interior_in_cells (p : Pos) : interior p -> In p interior_cells.
Proof.
  destruct p as [x y]. unfold interior, interior_cells; simpl fst; simpl snd.
  intros [Hx Hy]. apply in_prod; apply in_map_iff.
  - exists (Z.to_nat x). split; [lia | ]. apply in_seq. lia.
  - exists (Z.to_nat y). split; [lia | ]. apply in_seq. lia.
Qed.

(** X4: in every reachable state all segments of the snake lie in the
    grid, with coordinates from 0 to 19 (so the [int] arithmetic of the
    update never overflows), and while the game is not over they lie
    strictly inside the outer ring. *)
Theorem snake_cells_in_bounds (rand_seq : nat -> N) (st : State) :
  reachable rand_seq st ->
  Forall in_grid (snake st) /\
  (gameOver st = false -> Forall interior (snake st)).
Proof.
  intros Hr. apply reachable_inv in Hr.
  destruct Hr as [_ [Hg [_ Ha]]]. split; [exact Hg | ].
  intros Hgo. apply Ha. exact Hgo.
Qed.


(** X6: in every reachable state the direction is one of 1, 2, 3, 4, so
    that the switch of the update always moves the head, and the snake is
    an unbroken chain: each segment shares a side with the next one. *)
Theorem snake_is_a_chain (rand_seq : nat -> N) (st : State) :
  reachable rand_seq st -> 1 <= dir st <= 4 /\ chain (snake st).
Proof.
  intros Hr. split; [apply reachable_inv in Hr; tauto | ].
  induction Hr as [|st st' inp ev Hr IH Hgo Htick]; [exact I | ].
  destruct (tick_step _ _ _ _ _ Htick) as [h [t [head [Hsn [Hmv ->]]]]].
  cbn [snake].
  assert (Hd : 1 <= handle_input inp (dir st) <= 4)
    by (apply handle_input_range; apply reachable_inv in Hr; tauto).
  assert (Hc : chain (head :: snake st)).
  { rewrite Hsn. split; [ | rewrite <- Hsn; exact IH].
    subst head. apply move_adjacent. exact Hd. }
  destruct (pos_eqb head (fruit st)); [ | apply chain_removelast]; exact Hc.
Qed.

(** X7: in every reachable state the number of calls made to
    [std::rand()] is twice the length of the snake: two calls at start-up
    and two for each fruit eaten, and none otherwise. *)
Theorem rand_calls_twice_the_length (rand_seq : nat -> N) (st : State) :
  reachable rand_seq st -> rand_idx st = (2 * List.length (snake st))%nat.
Proof.
  induction 1 as [|st st' inp ev Hr IH Hgo Htick]; [reflexivity | ].
  destruct (tick_step _ _ _ _ _ Htick) as [h [t [head [Hsn [Hmv ->]]]]].
  cbn [snake rand_idx].
  destruct (pos_eqb head (fruit st)).
  - simpl List.length. lia.
  - rewrite length_removelast_cons. exact IH.
Qed.

(** X8: in every reachable state the fruit lies in the grid, with both
    coordinates from 0 to 19. *)
Theorem fruit_in_grid (rand_seq : nat -> N) (st : State) :
  reachable rand_seq st -> in_grid (fruit st).
Proof.
  induction 1 as [|st st' inp ev Hr IH Hgo Htick].
  - unfold in_grid, init, rand_fruit, rand. simpl fst; simpl snd.
    split; apply rem_in_range; reflexivity.
  - destruct (tick_step _ _ _ _ _ Htick) as [h [t [head [Hsn [Hmv ->]]]]].
    cbn [fruit]. destruct (pos_eqb head (fruit st)); [ | exact IH].
    unfold in_grid. simpl fst; simpl snd.
    split; apply rem_in_range; reflexivity.
Qed.

(** X9: while the game is not over the snake of a reachable state has at
    most 18 * 18 = 324 segments, one for each cell inside the ring. *)
Theorem alive_snake_length_bound (rand_seq : nat -> N) (st : State) :
  reachable rand_seq st -> gameOver st = false ->
  (List.length (snake st) <= 324)%nat.
Proof.
  intros Hr Hgo. apply reachable_inv in Hr.
  destruct Hr as [_ [_ [_ Ha]]]. destruct (Ha Hgo) as [Hnd Hint].
  change 324%nat with (List.length interior_cells).
  apply NoDup_incl_length; [exact Hnd | ].
  intros p Hp. apply interior_in_cells.
  revert p Hp. apply Forall_forall. exact Hint.
Qed.

(** ** Fruit on the wall, keys and straight runs *)

Lemma run_ticks_alive (rand_seq : nat -> N) (inps : list Stdin)
  (st st' : State) :
  run_ticks rand_seq inps st = Some st' -> gameOver st' = false ->
  gameOver st = false.
Proof.
  destruct inps as [|inp rest]; simpl.
  - intros E; inversion E; subst; auto.
  - destruct (gameOver st); [discriminate | reflexivity].
Qed.

Lemma run_ticks_cons (rand_seq : nat -> N) (inp : Stdin)
  (rest : list Stdin) (st st' : State) :
  run_ticks rand_seq (inp :: rest) st = Some st' ->
  gameOver st = false /\
  exists st1 ev, tick rand_seq inp st = Done (st1, ev) /\
                 run_ticks rand_seq rest st1 = Some st'.
Proof.
  cbn [run_ticks]. destruct (gameOver st); [discriminate | ].
  destruct (tick rand_seq inp st) as [[st1 ev] | | ]; try discriminate.
  intros H. split; [reflexivity | eauto].
Qed.

(** X10: a fruit that lies on the outer ring is never eaten by a snake
    that survives: over any number of ticks after which the game is still
    not over, the fruit stays where it is and the snake keeps its length. *)
Theorem fruit_on_ring_is_never_eaten
  (rand_seq : nat -> N) (inps : list Stdin) (st st' : State) :
  hits_wall (fruit st) = true ->
  run_ticks rand_seq inps st = Some st' -> gameOver st' = false ->
  fruit st' = fruit st /\
  List.length (snake st') = List.length (snake st).
Proof.
  revert st. induction inps as [|inp rest IH]; intros st Hf Hrun Hgo'.
  - simpl in Hrun. inversion Hrun; subst. split; reflexivity.
  - apply run_ticks_cons in Hrun.
    destruct Hrun as [Hgo [st1 [ev [Htick Hrest]]]].
    assert (Hgo1 := run_ticks_alive _ _ _ _ Hrest Hgo').
    destruct (tick_step _ _ _ _ _ Htick) as [h [t [head [Hsn [Hmv Hst1]]]]].
    assert (Hne : pos_eqb head (fruit st) = false).
    { destruct (pos_eqb head (fruit st)) eqn:E; [ | reflexivity].
      apply pos_eqb_eq in E. rewrite Hst1 in Hgo1. cbn [gameOver] in Hgo1.
      rewrite E, Hf, orb_true_r in Hgo1. discriminate Hgo1. }
    rewrite Hne in Hst1.
    assert (Hf1 : fruit st1 = fruit st) by (rewrite Hst1; reflexivity).
    assert (Hl1 : List.length (snake st1) = List.length (snake st))
      by (rewrite Hst1; apply length_removelast_cons).
    destruct (IH st1) as [Hf' Hl']; try assumption.
    + rewrite Hf1. exact Hf.
    + split; congruence.
Qed.

Lemma tick_new_front (rand_seq : nat -> N) (inp : Stdin) (st st' : State)
  (ev : list Event) (h : Pos) (t : list Pos) :
  snake st = h :: t -> tick rand_seq inp st = Done (st', ev) ->
  exists rest,
    snake st' = move (handle_input inp (dir st)) h :: rest.
Proof.
  intros Hsn Htick.
  destruct (tick_step _ _ _ _ _ Htick) as [h' [t' [head [Hsn' [Hmv ->]]]]].
  rewrite Hsn in Hsn'. inversion Hsn'; subst h' t'. subst head.
  cbn [snake]. destruct (pos_eqb _ _); [eauto | ].
  rewrite Hsn, removelast_cons2. eauto.
Qed.

(** X11: an arrow key acts on the move of the same tick: with the head at
    (x,y) before the tick, the head after it is (x,y-1) for the code A,
    (x,y+1) for B, (x+1,y) for C and (x-1,y) for D. *)
Theorem arrow_key_moves_head_in_same_tick
  (rand_seq : nat -> N) (inp : Stdin) (st st' : State) (ev : list Event)
  (h : Pos) (t : list Pos) :
  snake st = h :: t -> tick rand_seq inp st = Done (st', ev) ->
  (polled_arrow inp "A" -> hd_error (snake st') = Some (fst h, snd h - 1)) /\
  (polled_arrow inp "B" -> hd_error (snake st') = Some (fst h, snd h + 1)) /\
  (polled_arrow inp "C" -> hd_error (snake st') = Some (fst h + 1, snd h)) /\
  (polled_arrow inp "D" -> hd_error (snake st') = Some (fst h - 1, snd h)).
Proof.
  intros Hsn Htick.
  destruct (tick_new_front _ _ _ _ _ _ _ Hsn Htick) as [rest ->].
  repeat split; intros Hp; rewrite (handle_input_arrow _ _ _ Hp); reflexivity.
Qed.

Lemma shift_zero (d : Z) (h : Pos) : shift d 0 h = h.
Proof.
  destruct h as [x y]. unfold shift. simpl fst; simpl snd.
  rewrite Z.sub_0_r, Z.add_0_r, Z.sub_0_r, Z.add_0_r.
  destruct d as [|p|p]; auto. repeat (destruct p as [p|p|]; auto).
Qed.

Lemma shift_move (d n : Z) (h : Pos) :
  shift d n (move d h) = shift d (n + 1) h.
Proof.
  unfold shift, move. destruct d as [|p|p]; auto.
  repeat (destruct p as [p|p|]; auto); simpl fst; simpl snd; f_equal; lia.
Qed.

(** X12: as long as no arrow key is decoded and the game goes on, the
    snake runs straight: after n ticks the direction is the same and the
    head is n cells further in that direction. *)
Theorem straight_run_without_keys
  (rand_seq : nat -> N) (inps : list Stdin) (st st' : State)
  (h : Pos) (t : list Pos) :
  Forall (fun inp => forall d, handle_input inp d = d) inps ->
  snake st = h :: t -> run_ticks rand_seq inps st = Some st' ->
  dir st' = dir st /\
  hd_error (snake st')
  = Some (shift (dir st) (Z.of_nat (List.length inps)) h).
Proof.
  revert st h t. induction inps as [|inp rest IH]; intros st h t Hk Hsn Hrun.
  - simpl in Hrun. inversion Hrun; subst st'.
    rewrite Hsn, shift_zero. split; reflexivity.
  - apply run_ticks_cons in Hrun.
    destruct Hrun as [Hgo [st1 [ev [Htick Hrest]]]].
    inversion Hk as [|? ? Hinp Hk']; subst.
    destruct (tick_new_front _ _ _ _ _ _ _ Hsn Htick) as [r1 Hsn1].
    rewrite Hinp in Hsn1.
    assert (Hd1 : dir st1 = dir st)
      by (rewrite (tick_dir _ _ _ _ _ Htick); apply Hinp).
    destruct (IH st1 _ _ Hk' Hsn1 Hrest) as [Hd Hh].
    rewrite Hd1 in Hd, Hh. split; [exact Hd | ].
    rewrite Hh, shift_move. do 2 f_equal.
    cbn [List.length]. lia.
Qed.




(** ** What a frame shows *)

Lemma draw_rows (st : State) :
  draw st
  = Cout clear_screen :: flat_map (row_spec st) (upto height)
    ++ [Cout trailer].
Proof.
  unfold draw. rewrite for_range_upto.
  rewrite (flat_map_ext _ (row_spec st)) by (intros y; apply draw_row_spec).
  reflexivity.
Qed.

Lemma draw_at_cell (st : State) (p : Pos) :
  in_grid p ->
  nth_error (draw st) (cell_index p)
  = Some (Cout (glyph_spec st (fst p) (snd p))).
Proof.
  intros [Hx Hy]. unfold cell_index. rewrite draw_rows. cbn [nth_error].
  fold (frame_spec st).
  rewrite frame_spec_cell by (unfold width, height in *; lia).
  rewrite !Z2Nat.id by lia. reflexivity.
Qed.

Lemma in_upto (x n : Z) : In x (upto n) -> 0 <= x < n.
Proof.
  unfold upto. rewrite in_map_iff. intros [k [<- Hk]].
  apply in_seq in Hk. lia.
Qed.

Lemma draw_events (st : State) (e : Event) :
  In e (draw st) ->
  e = Cout clear_screen \/
  (exists x y, 0 <= x < width /\ 0 <= y < height /\
               e = Cout (glyph_spec st x y)) \/
  e = Cout (str1 NL) \/ e = Cout trailer.
Proof.
  rewrite draw_rows. cbn [In]. rewrite in_app_iff, in_flat_map.
  intros [H | [[y [Hy H]] | [H | []]]]; auto.
  unfold row_spec in H. rewrite in_app_iff, in_map_iff in H.
  destruct H as [[x [H Hx]] | [H | []]]; auto.
  right; left. exists x, y.
  apply in_upto in Hx, Hy. auto.
Qed.

Lemma on_ring_false (x y : Z) :
  0 <= x < width -> 0 <= y < height -> on_ring x y = false ->
  interior (x, y).
Proof.
  unfold on_ring, interior, width, height. simpl fst; simpl snd.
  rewrite !orb_false_iff, !Z.eqb_neq. lia.
Qed.

Lemma interior_not_on_ring (p : Pos) :
  interior p -> on_ring (fst p) (snd p) = false.
Proof.
  unfold on_ring, interior, width, height.
  rewrite !orb_false_iff, !Z.eqb_neq. lia.
Qed.

Lemma existsb_same_cells (p : Pos) (l1 l2 : list Pos) :
  (forall q, In q l1 <-> In q l2) ->
  existsb (pos_eqb p) l1 = existsb (pos_eqb p) l2.
Proof.
  intros H.
  assert (E : forall l, existsb (pos_eqb p) l = true <-> In p l).
  { intros l. rewrite existsb_exists. split.
    - intros [q [Hin Hq]]. apply pos_eqb_eq in Hq. subst; assumption.
    - intros Hin. exists p. split; [assumption | apply pos_eqb_refl]. }
  destruct (existsb (pos_eqb p) l1) eqn:E1, (existsb (pos_eqb p) l2) eqn:E2;
    try reflexivity.
  - apply E, H, E in E1. congruence.
  - apply E, H, E in E2. congruence.
Qed.

(** X14: a frame shows the fruit only when it lies strictly inside the
    ring: then the glyph at the place of its cell is 'F'; a fruit on the
    outer ring is hidden by the wall, and no 'F' is written at all. *)
Theorem fruit_shown_only_inside_ring (st : State) :
  (interior (fruit st) ->
   nth_error (draw st) (cell_index (fruit st)) = Some (Cout "F")) /\
  (~ interior (fruit st) -> ~ In (Cout "F") (draw st)).
Proof.
  split.
  - intros Hi. rewrite draw_at_cell by (apply interior_in_grid; exact Hi).
    unfold glyph_spec. rewrite (interior_not_on_ring _ Hi).
    replace (fst (fruit st), snd (fruit st)) with (fruit st)
      by (destruct (fruit st); reflexivity).
    rewrite pos_eqb_refl. reflexivity.
  - intros Hni Hin. apply draw_events in Hin.
    destruct Hin as [E | [[x [y [Hx [Hy E]]]] | [E | E]]];
      try (vm_compute in E; discriminate E).
    apply Hni. unfold glyph_spec in E.
    destruct (on_ring x y) eqn:Hring; [discriminate E | ].
    destruct (pos_eqb (x, y) (fruit st)) eqn:Hf.
    + apply pos_eqb_eq in Hf. rewrite <- Hf.
      apply on_ring_false; assumption.
    + destruct (existsb (pos_eqb (x, y)) (snake st)); discriminate E.
Qed.

(** X15: in a reachable state in which the game is not over every
    segment of the snake is visible: the glyph at the place of its cell is
    'O', or 'F' when the fruit lies on the same cell. *)
Theorem alive_snake_is_drawn (rand_seq : nat -> N) (st : State) (p : Pos) :
  reachable rand_seq st -> gameOver st = false -> In p (snake st) ->
  nth_error (draw st) (cell_index p)
  = Some (Cout (if pos_eqb p (fruit st) then "F" else "O")).
Proof.
  intros Hr Hgo Hin. apply reachable_inv in Hr.
  destruct Hr as [_ [_ [_ Ha]]]. destruct (Ha Hgo) as [_ Hint].
  assert (Hp : interior p) by (revert p Hin; apply Forall_forall; exact Hint).
  rewrite draw_at_cell by (apply interior_in_grid; exact Hp).
  unfold glyph_spec. rewrite (interior_not_on_ring _ Hp).
  replace (fst p, snd p) with p by (destruct p; reflexivity).
  destruct (pos_eqb p (fruit st)); [reflexivity | ].
  replace (existsb (pos_eqb p) (snake st)) with true; [reflexivity | ].
  symmetry. apply existsb_exists. exists p.
  split; [exact Hin | apply pos_eqb_refl].
Qed.

(** X16: a frame depends only on the fruit and on the set of cells of the
    snake: two states with the same fruit whose snakes cover the same cells
    are drawn alike, whatever the order of the segments, the direction and
    the other variables. *)
Theorem frame_depends_on_cells_only (s1 s2 : State) :
  fruit s1 = fruit s2 ->
  (forall p, In p (snake s1) <-> In p (snake s2)) ->
  draw s1 = draw s2.
Proof.
  intros Hf Hs. rewrite !draw_rows. do 2 f_equal.
  apply flat_map_ext. intros y. unfold row_spec. f_equal.
  apply map_ext. intros x. unfold glyph_spec.
  rewrite Hf, (existsb_same_cells _ _ _ Hs). reflexivity.
Qed.

(** ** Instances of the further properties *)

Lemma raw_mode_clears_canon_and_echo_witness :
  0 <= c_lflag (attrs sample_tty) < 2 ^ 32 /\
  c_lflag (attrs (setRaw 2 8 true sample_tty)) = 35377 /\
  oldt (setRaw 2 8 true sample_tty) = attrs sample_tty /\
  Z.testbit (c_lflag (attrs (setRaw 2 8 true sample_tty))) 3
  = Z.testbit (c_lflag (attrs sample_tty)) 3
    && negb (Z.testbit 2 3 || Z.testbit 8 3).
Proof.
  assert (Hl : 0 <= c_lflag (attrs sample_tty) < 2 ^ 32) by (simpl; lia).
  split; [exact Hl | ]. split; [reflexivity | ].
  destruct (raw_mode_clears_canon_and_echo 2 8 sample_tty Hl)
    as [Hbits [_ [_ [_ [_ [_ Hold]]]]]].
  split; [exact Hold | ]. apply Hbits. lia.
Defined.

Lemma main_restores_terminal_witness :
  exists tr,
    main rand19 9 (fun _ => no_key) = Done (0, tr) /\
    attrs (run_terminal 2 8 tr sample_tty) = attrs sample_tty.
Proof.
  assert (H : exists tr, main rand19 9 (fun _ => no_key) = Done (0, tr))
    by (vm_compute; eexists; reflexivity).
  destruct H as [tr H]. exists tr. split; [exact H | ].
  exact (main_restores_terminal rand19 2 8 9 (fun _ => no_key) 0 tr
           sample_tty H).
Defined.

Lemma second_enable_loses_saved_attributes_witness :
  0 <= c_lflag (attrs sample_tty) < 2 ^ 32 /\ 0 <= 1 /\
  Z.testbit (c_lflag (attrs sample_tty)) 1 = true /\
  Z.testbit 2 1 || Z.testbit 8 1 = true /\
  attrs (setRaw 2 8 false (setRaw 2 8 true (setRaw 2 8 true sample_tty)))
  = attrs (setRaw 2 8 true sample_tty) /\
  attrs (setRaw 2 8 false (setRaw 2 8 true (setRaw 2 8 true sample_tty)))
  <> attrs sample_tty.
Proof.
  assert (Hl : 0 <= c_lflag (attrs sample_tty) < 2 ^ 32) by (simpl; lia).
  assert (H1 : 0 <= 1) by lia.
  split; [exact Hl | ]. split; [exact H1 | ].
  split; [reflexivity | ]. split; [reflexivity | ].
  exact (second_enable_loses_saved_attributes 2 8 sample_tty 1 Hl H1
           eq_refl eq_refl).
Defined.

Lemma snake_cells_in_bounds_witness :
  reachable sample_rand st_grown /\
  Forall in_grid (snake st_grown) /\
  (gameOver st_grown = false -> Forall interior (snake st_grown)).
Proof.
  split; [apply reachable_grown | ].
  exact (snake_cells_in_bounds sample_rand st_grown reachable_grown).
Defined.


Lemma snake_is_a_chain_witness :
  reachable sample_rand st_grown /\
  1 <= dir st_grown <= 4 /\ chain (snake st_grown).
Proof.
  split; [apply reachable_grown | ].
  exact (snake_is_a_chain sample_rand st_grown reachable_grown).
Defined.

Lemma rand_calls_twice_the_length_witness :
  reachable sample_rand st_grown /\
  rand_idx st_grown = (2 * List.length (snake st_grown))%nat.
Proof.
  split; [apply reachable_grown | ].
  exact (rand_calls_twice_the_length sample_rand st_grown reachable_grown).
Defined.

Lemma fruit_in_grid_witness :
  reachable sample_rand st_grown /\ in_grid (fruit st_grown).
Proof.
  split; [apply reachable_grown | ].
  exact (fruit_in_grid sample_rand st_grown reachable_grown).
Defined.

Lemma alive_snake_length_bound_witness :
  reachable sample_rand st_grown /\ gameOver st_grown = false /\
  (List.length (snake st_grown) <= 324)%nat.
Proof.
  split; [apply reachable_grown | ]. split; [reflexivity | ].
  exact (alive_snake_length_bound sample_rand st_grown reachable_grown
           eq_refl).
Defined.

Lemma fruit_on_ring_is_never_eaten_witness :
  hits_wall (fruit st_grown) = true /\
  run_ticks sample_rand [no_key; no_key] st_grown
  = Some (mkState [(13, 10); (12, 10)] 2 (0, 5) false 4) /\
  fruit (mkState [(13, 10); (12, 10)] 2 (0, 5) false 4) = fruit st_grown /\
  List.length (snake (mkState [(13, 10); (12, 10)] 2 (0, 5) false 4))
  = List.length (snake st_grown).
Proof.
  assert (Hrun : run_ticks sample_rand [no_key; no_key] st_grown
                 = Some (mkState [(13, 10); (12, 10)] 2 (0, 5) false 4))
    by (vm_compute; reflexivity).
  split; [reflexivity | ]. split; [exact Hrun | ].
  exact (fruit_on_ring_is_never_eaten sample_rand [no_key; no_key] st_grown
           _ eq_refl Hrun eq_refl).
Defined.

Lemma arrow_key_moves_head_in_same_tick_witness :
  snake st_start = [(10, 10)] /\
  tick sample_rand (arrow "A") st_start
  = Done (mkState [(10, 9)] 3 (11, 10) false 2,
          draw st_start ++ [SleepMs 100]) /\
  polled_arrow (arrow "A") "A" /\
  hd_error (snake (mkState [(10, 9)] 3 (11, 10) false 2))
  = Some (fst (10, 10), snd (10, 10) - 1).
Proof.
  assert (Ht : tick sample_rand (arrow "A") st_start
               = Done (mkState [(10, 9)] 3 (11, 10) false 2,
                       draw st_start ++ [SleepMs 100]))
    by (vm_compute; reflexivity).
  assert (Hp : polled_arrow (arrow "A") "A")
    by (unfold polled_arrow; simpl; repeat split; reflexivity).
  split; [reflexivity | ]. split; [exact Ht | ]. split; [exact Hp | ].
  exact (proj1 (arrow_key_moves_head_in_same_tick sample_rand (arrow "A")
                  st_start _ _ (10, 10) [] eq_refl Ht) Hp).
Defined.

Lemma straight_run_without_keys_witness :
  Forall (fun inp => forall d, handle_input inp d = d) [no_key; no_key; no_key] /\
  run_ticks rand19 [no_key; no_key; no_key] (init rand19)
  = Some (mkState [(13, 10)] 2 (19, 19) false 2) /\
  dir (mkState [(13, 10)] 2 (19, 19) false 2) = dir (init rand19) /\
  hd_error (snake (mkState [(13, 10)] 2 (19, 19) false 2))
  = Some (shift (dir (init rand19)) 3 (10, 10)).
Proof.
  assert (Hk : Forall (fun inp => forall d, handle_input inp d = d)
                 [no_key; no_key; no_key])
    by (repeat (constructor; [intros d; reflexivity | ]); constructor).
  assert (Hrun : run_ticks rand19 [no_key; no_key; no_key] (init rand19)
                 = Some (mkState [(13, 10)] 2 (19, 19) false 2))
    by (vm_compute; reflexivity).
  split; [exact Hk | ]. split; [exact Hrun | ].
  exact (straight_run_without_keys rand19 [no_key; no_key; no_key]
           (init rand19) _ (10, 10) [] Hk eq_refl Hrun).
Defined.


Lemma fruit_shown_only_inside_ring_witness :
  (interior (fruit st_start) /\
   nth_error (draw st_start) (cell_index (fruit st_start))
   = Some (Cout "F")) /\
  (~ interior (fruit st_grown) /\ ~ In (Cout "F") (draw st_grown)).
Proof.
  assert (Hi : interior (fruit st_start))
    by (unfold interior, width, height; simpl; lia).
  assert (Hn : ~ interior (fruit st_grown))
    by (unfold interior, width, height; simpl; lia).
  split.
  - split; [exact Hi | ].
    exact (proj1 (fruit_shown_only_inside_ring st_start) Hi).
  - split; [exact Hn | ].
    exact (proj2 (fruit_shown_only_inside_ring st_grown) Hn).
Defined.

Lemma alive_snake_is_drawn_witness :
  reachable sample_rand st_grown /\ gameOver st_grown = false /\
  In (10, 10) (snake st_grown) /\
  nth_error (draw st_grown) (cell_index (10, 10))
  = Some (Cout (if pos_eqb (10, 10) (fruit st_grown) then "F" else "O")).
Proof.
  assert (Hin : In (10, 10) (snake st_grown)) by (simpl; auto).
  split; [apply reachable_grown | ]. split; [reflexivity | ].
  split; [exact Hin | ].
  exact (alive_snake_is_drawn sample_rand st_grown (10, 10) reachable_grown
           eq_refl Hin).
Defined.

Lemma frame_depends_on_cells_only_witness :
  fruit st_grown = fruit st_reversed /\
  (forall p, In p (snake st_grown) <-> In p (snake st_reversed)) /\
  draw st_grown = draw st_reversed.
Proof.
  assert (Hs : forall p, In p (snake st_grown) <-> In p (snake st_reversed))
    by (intros p; simpl; tauto).
  split; [reflexivity | ]. split; [exact Hs | ].
  exact (frame_depends_on_cells_only st_grown st_reversed eq_refl Hs).
Defined.

End Snake.
